(** * nano-gpu-scheduler: the dealer and the filter handler

    A shallow embedding of [pkg/dealer/dealer.go] (the [DealerImpl] methods)
    and of the filter / prioritize handlers of package [scheduler], with the
    properties of the natural-language specification stated and proved over
    it.

    Conventions of the embedding.
    - A Go [error] is observed only through [Error()], so it is its message;
      a nilable error is an [option error].
    - Go maps are [gmap]s; [map[types.UID]struct{}] is a [gset].
    - [*NodeInfo] pointers always point into [NodeMaps] (one object per key),
      so a pointer is the key it is stored under and a method call through
      the pointer writes the entry back.
    - [PodMaps] holds [*v1.Pod] pointers.  The dealer never writes through
      one of them, so the map of the embedding holds, under each UID, the
      pod its pointer leads to.  Two entries share a pointer in one place,
      the replay loop of [getNodeInfo], which stores the address of its
      range variable: see [replayPod].
    - Every method runs under [d.Lock]; a method is a function from the dealer
      before the call to its results and the dealer after it.
    - The cluster behind [Client], [NodeLister] and [PodLister] is a state [C]
      with an interface [ClusterAPI]: reads are functions of the state,
      writes step it. *)

From Stdlib Require Import Ascii ZArith Lia.
From stdpp Require Import base gmap list strings pretty.

Open Scope string_scope.

(** ** Errors *)

Definition error := string.

Definition OptimisticLockErrorMsg : string :=
  "the object has been modified; please apply your changes to the latest version and try again".

(** ** The cluster objects the dealer reads (package [v1]) *)

Module v1.

(** The resource requests of one container: GPU core percentage and GPU
    memory (MiB); [0] when the container does not declare the resource. *)
Record Container := {
  GPUCore : Z;
  GPUMemory : Z;
}.

Record Pod := {
  UID : string;
  Namespace : string;
  Name : string;
  NodeName : string;                    (* Spec.NodeName *)
  Annotations : gmap string string;     (* ObjectMeta.Annotations *)
  Containers : list Container;          (* Spec.Containers, requests only *)
}.

(** Modelled from the spec: the node capacity contract (number of GPUs,
    per-card memory; per-card core units are always 100). *)
Record Node := {
  NodeObjName : string;
  NodeAnnotations : option (gmap string string);
  GPUCount : nat;
  GPUMemoryMiB : Z;
}.

Record Binding := {
  BindingNamespace : string;
  BindingName : string;
  BindingUID : string;
  TargetKind : string;
  TargetName : string;
}.

End v1.

(** ** The cluster API: [NodeLister.Get], and [Client.CoreV1().Pods(ns)] *)

Class ClusterAPI (C : Type) := {
  (** [NodeLister.Get(name)] *)
  NodeLister_Get : C → string → error + v1.Node;
  (** [Pods(NamespaceAll).List] with label selector [GPUAssume=true] and,
      when given, the field selector on the node name *)
  Pods_List : C → option string → error + list v1.Pod;
  (** [Pods(ns).Get(name)] *)
  Pods_Get : C → string → string → error + v1.Pod;
  (** [Pods(ns).Update(pod)] *)
  Pods_Update : C → string → v1.Pod → C * (error + v1.Pod);
  (** [Pods(ns).Bind(binding)] *)
  Pods_Bind : C → string → v1.Binding → C * option error;
}.

(** ** The node engine

    [NodeInfo], [Demand], [Plan], the rater and the pod helpers are declared
    in files of package [dealer] and [utils] other than [dealer.go]; the
    dealer is written against this interface.  A method with a pointer
    receiver returns the receiver after the call. *)

Class NodeEngine := {
  NodeInfo : Type;
  Demand : Type;
  Plan : Type;
  Rater : Type;
  PolicySpec : Type;
  CoreUsageMap : Type;      (* map[string]map[int]GPUCoreUsage *)
  MemoryUsageMap : Type;    (* map[string]map[int]GPUMemoryUsage *)
  ScoreMin : Z;
  emptyCoreUsage : CoreUsageMap;
  emptyMemoryUsage : MemoryUsageMap;
  NewDemandFromPod : v1.Pod → Demand;
  NewPlanFromPod : v1.Pod → error + Plan;
  GPUIndexes : Plan → list nat;
  GetUpdatedPodAnnotationSpec : v1.Pod → list nat → v1.Pod;
  NewNodeInfo : string → v1.Node → Rater → NodeInfo;
  NodeInfo_Name : NodeInfo → string;
  NodeInfo_cleanPlan : NodeInfo → NodeInfo;
  NodeInfo_Assume :
    Demand → CoreUsageMap → MemoryUsageMap → PolicySpec → bool →
    NodeInfo → (bool * option error) * NodeInfo;
  NodeInfo_Score :
    Demand → CoreUsageMap → MemoryUsageMap → PolicySpec → bool →
    NodeInfo → Z * NodeInfo;
  NodeInfo_Bind :
    Demand → CoreUsageMap → MemoryUsageMap → PolicySpec → bool →
    NodeInfo → (error + Plan) * NodeInfo;
  NodeInfo_Allocate : Plan → NodeInfo → option error * NodeInfo;
  NodeInfo_Release : Plan → NodeInfo → option error * NodeInfo;
}.

(** ** The dealer *)

Section Dealer.
Context {C : Type} {api : ClusterAPI C} {eng : NodeEngine}.

Record DealerImpl := {
  Client : C;                         (* Client, NodeLister, PodLister *)
  DealerRater : Rater;                (* field Rater *)
  PodMaps : gmap string v1.Pod;
  NodeMaps : gmap string NodeInfo;
  CoreUsage : CoreUsageMap;
  MemoryUsage : MemoryUsageMap;
  ReleasedPodMap : gset string;
}.

Definition set_Client (c : C) (d : DealerImpl) : DealerImpl :=
  {| Client := c; DealerRater := DealerRater d; PodMaps := PodMaps d;
     NodeMaps := NodeMaps d; CoreUsage := CoreUsage d;
     MemoryUsage := MemoryUsage d; ReleasedPodMap := ReleasedPodMap d |}.

Definition set_PodMaps (m : gmap string v1.Pod) (d : DealerImpl) : DealerImpl :=
  {| Client := Client d; DealerRater := DealerRater d; PodMaps := m;
     NodeMaps := NodeMaps d; CoreUsage := CoreUsage d;
     MemoryUsage := MemoryUsage d; ReleasedPodMap := ReleasedPodMap d |}.

Definition set_NodeMaps (m : gmap string NodeInfo) (d : DealerImpl) : DealerImpl :=
  {| Client := Client d; DealerRater := DealerRater d; PodMaps := PodMaps d;
     NodeMaps := m; CoreUsage := CoreUsage d;
     MemoryUsage := MemoryUsage d; ReleasedPodMap := ReleasedPodMap d |}.

Definition set_ReleasedPodMap (s : gset string) (d : DealerImpl) : DealerImpl :=
  {| Client := Client d; DealerRater := DealerRater d; PodMaps := PodMaps d;
     NodeMaps := NodeMaps d; CoreUsage := CoreUsage d;
     MemoryUsage := MemoryUsage d; ReleasedPodMap := s |}.

(** A method call through the pointer stored under [name]. *)
Definition store_node (name : string) (ni : NodeInfo) (d : DealerImpl) : DealerImpl :=
  set_NodeMaps (<[name := ni]> (NodeMaps d)) d.

(** *** [getNodeInfo] *)

(** One iteration of the replay loop of [getNodeInfo] (lines 287-299): the
    node under construction and [PodMaps] are the state.  The loop [for _,
    pod := range pods.Items] has one variable [pod] for all its iterations
    (the language before Go 1.22), and line 298 stores [&pod], the address
    of that variable: the entries the loop writes are one and the same
    pointer.  Nothing reads [PodMaps] while the loop runs, and when it is
    over the variable holds the last element of [pods.Items]: that element,
    [shared], is the pod every entry written by the loop leads to. *)
Definition replayPod (shared : v1.Pod) (st : NodeInfo * gmap string v1.Pod)
    (pod : v1.Pod) : NodeInfo * gmap string v1.Pod :=
  match NewPlanFromPod pod with
  | inl _ => st
  | inr plan =>
      match NodeInfo_Allocate plan (fst st) with
      | (Some _, ni') => (ni', snd st)
      | (None, ni') => (ni', <[v1.UID pod := shared]> (snd st))
      end
  end.

(** The loop over [pods.Items]; it has no iteration when the list is
    empty. *)
Definition replayPods (pods : list v1.Pod) (st : NodeInfo * gmap string v1.Pod)
  : NodeInfo * gmap string v1.Pod :=
  match last pods with
  | None => st
  | Some shared => foldl (replayPod shared) st pods
  end.

Definition getNodeInfo (name : string) (d : DealerImpl)
  : (error + NodeInfo) * DealerImpl :=
  match NodeMaps d !! name with
  | Some ni => (inr ni, d)
  | None =>
      match NodeLister_Get (Client d) name with
      | inl err => (inl err, d)
      | inr node =>
          match Pods_List (Client d) (Some name) with
          | inl err => (inl err, d)
          | inr pods =>
              let '(ni, pm) :=
                replayPods pods (NewNodeInfo name node (DealerRater d), PodMaps d) in
              (inr ni, set_PodMaps pm (store_node name ni d))
          end
      end
  end.

(** *** [NewDealer] *)

Definition seedPodNode (d : DealerImpl) (pod : v1.Pod) : DealerImpl :=
  if decide (v1.NodeName pod = "") then d
  else snd (getNodeInfo (v1.NodeName pod) d).

Definition NewDealer (clientset : C) (rater : Rater) : error + DealerImpl :=
  let di := {| Client := clientset; DealerRater := rater; PodMaps := ∅;
               NodeMaps := ∅; CoreUsage := emptyCoreUsage;
               MemoryUsage := emptyMemoryUsage; ReleasedPodMap := ∅ |} in
  match Pods_List clientset None with
  | inl err => inl err
  | inr pods => inr (foldl seedPodNode di pods)
  end.

(** *** [Assume] *)

(** The three slices [Assume] allocates: [ans], [res] and [nodeInfos]. *)
Record assumeWork := {
  ans : list bool;
  res : list (option error);
  nodeInfos : list (option string);
}.

Definition newAssumeWork (n : nat) : assumeWork :=
  {| ans := replicate n false; res := replicate n None;
     nodeInfos := replicate n None |}.

(** The body of the first loop, [for i, name := range nodes]. *)
Definition resolveNode (i : nat) (name : string) (st : assumeWork * DealerImpl)
  : assumeWork * DealerImpl :=
  let '(w, d) := st in
  match getNodeInfo name d with
  | (inl err, d') =>
      ({| ans := <[i := false]> (ans w);
          res := <[i := Some ("nano gpu scheduler get node failed: " ++ err)]> (res w);
          nodeInfos := <[i := None]> (nodeInfos w) |}, d')
  | (inr _, d') =>
      ({| ans := ans w; res := res w;
          nodeInfos := <[i := Some name]> (nodeInfos w) |}, d')
  end.

Fixpoint resolveNodes (i : nat) (names : list string) (st : assumeWork * DealerImpl)
  : assumeWork * DealerImpl :=
  match names with
  | [] => st
  | name :: names' => resolveNodes (S i) names' (resolveNode i name st)
  end.

(** What a worker does with one [number] received from the channel. *)
Definition assumeOne (demand : Demand) (policySpec : PolicySpec)
    (isLoadSchedule : bool) (st : assumeWork * DealerImpl) (number : nat)
  : assumeWork * DealerImpl :=
  let '(w, d) := st in
  match nodeInfos w !! number with
  | Some (Some name) =>
      match NodeMaps d !! name with
      | Some ni =>
          let '((assumed, err), ni') :=
            NodeInfo_Assume demand (CoreUsage d) (MemoryUsage d) policySpec
              isLoadSchedule (NodeInfo_cleanPlan ni) in
          ({| ans := <[number := assumed]> (ans w);
              res := <[number := err]> (res w);
              nodeInfos := nodeInfos w |}, store_node name ni' d)
      | None => st
      end
  | _ => st
  end.

(** The channel holds the indices [0 .. len(nodes)-1]; four workers receive
    from it until it is empty, so every index is processed once.  [sched n]
    is the order in which the workers process the [n] indices: some
    permutation of [0 .. n-1].  Two indices naming the same node share one
    [NodeInfo]; they are processed one after the other here. *)
Definition Assume (sched : nat → list nat) (nodes : list string) (pod : v1.Pod)
    (policySpec : PolicySpec) (isLoadSchedule : bool) (d : DealerImpl)
  : (list bool * list (option error)) * DealerImpl :=
  let demand := NewDemandFromPod pod in
  let st := resolveNodes 0 nodes (newAssumeWork (length nodes), d) in
  let '(w, d') :=
    foldl (assumeOne demand policySpec isLoadSchedule) st (sched (length nodes)) in
  ((ans w, res w), d').

(** The order of a single worker: the channel is first-in first-out. *)
Definition fifo (n : nat) : list nat := seq 0 n.

(** *** [Score] *)

Definition scoreNode (demand : Demand) (policySpec : PolicySpec)
    (isLoadSchedule : bool) (i : nat) (name : string)
    (st : list Z * DealerImpl) : list Z * DealerImpl :=
  let '(scores, d) := st in
  match getNodeInfo name d with
  | (inl _, d') => (<[i := ScoreMin]> scores, d')
  | (inr ni, d') =>
      let '(s, ni') :=
        NodeInfo_Score demand (CoreUsage d') (MemoryUsage d') policySpec
          isLoadSchedule ni in
      (<[i := s]> scores, store_node name ni' d')
  end.

Fixpoint scoreNodes (demand : Demand) (policySpec : PolicySpec)
    (isLoadSchedule : bool) (i : nat) (names : list string)
    (st : list Z * DealerImpl) : list Z * DealerImpl :=
  match names with
  | [] => st
  | name :: names' =>
      scoreNodes demand policySpec isLoadSchedule (S i) names'
        (scoreNode demand policySpec isLoadSchedule i name st)
  end.

Definition Score (nodes : list string) (pod : v1.Pod)
    (policySpec : PolicySpec) (isLoadSchedule : bool) (d : DealerImpl)
  : list Z * DealerImpl :=
  scoreNodes (NewDemandFromPod pod) policySpec isLoadSchedule 0 nodes
    (replicate (length nodes) 0%Z, d).

(** *** [Bind] *)

(** Lines 191-202: create the Binding, then record the pod. *)
Definition bindPod (node : string) (pod newPod : v1.Pod) (d : DealerImpl)
  : option error * DealerImpl :=
  let binding :=
    {| v1.BindingNamespace := v1.Namespace newPod;
       v1.BindingName := v1.Name newPod;
       v1.BindingUID := v1.UID newPod;
       v1.TargetKind := "Node";
       v1.TargetName := node |} in
  match Pods_Bind (Client d) (v1.Namespace newPod) binding with
  | (c, Some err) => (Some err, set_Client c d)
  | (c, None) =>
      (None, set_PodMaps (<[v1.UID pod := newPod]> (PodMaps d)) (set_Client c d))
  end.

(** Lines 176-190: write the plan into the pod's annotations. *)
Definition updatePod (node : string) (pod : v1.Pod) (indexes : list nat)
    (d : DealerImpl) : option error * DealerImpl :=
  let newPod := GetUpdatedPodAnnotationSpec pod indexes in
  match Pods_Update (Client d) (v1.Namespace newPod) newPod with
  | (c1, inl err) =>
      if decide (err = OptimisticLockErrorMsg) then
        match Pods_Get c1 (v1.Namespace pod) (v1.Name pod) with
        | inl err' => (Some err', set_Client c1 d)
        | inr pod' =>
            let newPod' := GetUpdatedPodAnnotationSpec pod' indexes in
            match Pods_Update c1 (v1.Namespace pod') newPod' with
            | (c2, inl err') => (Some err', set_Client c2 d)
            | (c2, inr _) => bindPod node pod' newPod' (set_Client c2 d)
            end
        end
      else (None, set_Client c1 d)
  | (c1, inr _) => bindPod node pod newPod (set_Client c1 d)
  end.

Definition Bind (node : string) (pod : v1.Pod) (policySpec : PolicySpec)
    (isLoadSchedule : bool) (d : DealerImpl) : option error * DealerImpl :=
  match getNodeInfo node d with
  | (inl err, d1) => (Some err, d1)
  | (inr ni, d1) =>
      match NodeLister_Get (Client d1) (NodeInfo_Name ni) with
      | inl err => (Some err, d1)
      | inr _ =>
          match NodeInfo_Bind (NewDemandFromPod pod) (CoreUsage d1)
                  (MemoryUsage d1) policySpec isLoadSchedule ni with
          | (inl err, ni') => (Some err, store_node node ni' d1)
          | (inr plan, ni') =>
              updatePod node pod (GPUIndexes plan) (store_node node ni' d1)
          end
      end
  end.

(** *** [Allocate], [Release], [Forget] *)

Definition Allocate (pod : v1.Pod) (d : DealerImpl) : option error * DealerImpl :=
  if decide (v1.NodeName pod = "") then
    (Some ("pod " ++ v1.Namespace pod ++ "/" ++ v1.Name pod ++ " nodename is empty"), d)
  else
    match getNodeInfo (v1.NodeName pod) d with
    | (inl err, d1) => (Some err, d1)
    | (inr ni, d1) =>
        match PodMaps d1 !! v1.UID pod with
        | Some _ => (None, d1)
        | None =>
            match NewPlanFromPod pod with
            | inl err => (Some err, d1)
            | inr plan =>
                match NodeInfo_Allocate plan ni with
                | (Some err, ni') => (Some err, store_node (v1.NodeName pod) ni' d1)
                | (None, ni') =>
                    (None, set_PodMaps (<[v1.UID pod := pod]> (PodMaps d1))
                             (store_node (v1.NodeName pod) ni' d1))
                end
            end
        end
    end.

Definition Release (pod : v1.Pod) (d : DealerImpl) : option error * DealerImpl :=
  match getNodeInfo (v1.NodeName pod) d with
  | (inl err, d1) => (Some err, d1)
  | (inr ni, d1) =>
      match PodMaps d1 !! v1.UID pod with
      | None => (None, d1)
      | Some _ =>
          match NewPlanFromPod pod with
          | inl err => (Some err, d1)
          | inr plan =>
              match NodeInfo_Release plan ni with
              | (Some err, ni') => (Some err, store_node (v1.NodeName pod) ni' d1)
              | (None, ni') =>
                  let d2 := store_node (v1.NodeName pod) ni' d1 in
                  (None, set_ReleasedPodMap ({[v1.UID pod]} ∪ ReleasedPodMap d2)
                           (set_PodMaps (delete (v1.UID pod) (PodMaps d2)) d2))
              end
          end
      end
  end.

Definition KnownPod (pod : v1.Pod) (d : DealerImpl) : bool :=
  bool_decide (is_Some (PodMaps d !! v1.UID pod)).

Definition PodReleased (pod : v1.Pod) (d : DealerImpl) : bool :=
  bool_decide (v1.UID pod ∈ ReleasedPodMap d).

Definition Forget (pod : v1.Pod) (d : DealerImpl) : option error * DealerImpl :=
  (None, set_PodMaps (delete (v1.UID pod) (PodMaps d))
           (set_ReleasedPodMap (ReleasedPodMap d ∖ {[v1.UID pod]}) d)).

Definition Status (d : DealerImpl) : gmap string NodeInfo * option error :=
  (NodeMaps d, None).

End Dealer.

Arguments DealerImpl C {_}.

(** ** Package [scheduler]: the filter and prioritize handlers *)

Module extender.

Record ExtenderArgs := {
  Pod : v1.Pod;
  NodeNames : option (list string);     (* *[]string, may be nil *)
}.

Record ExtenderFilterResult := {
  ResultNodeNames : list string;        (* NodeNames, points to canSchedule *)
  FailedNodes : gmap string string;
  Error : string;
}.

Record HostPriority := {
  Host : string;
  HostScore : Z;
}.

End extender.

Section Scheduler.
Context {C : Type} {api : ClusterAPI C} {eng : NodeEngine}.

(** The field [Dealer] of [Predicate] is the one dealer of the process; it
    is the state the handler runs on. *)
Record Predicate := {
  PredicateName : string;
  Func : v1.Pod → list string → DealerImpl C →
         (list bool * list (option error)) * DealerImpl C;
}.

(** The loop of [Predicate.Handler], over [i < len(can)].  [None] is a
    panic: an index out of range, or [Error()] called on a nil error. *)
Fixpoint collect (i : nat) (can : list bool) (nodeNames : list string)
    (res : list (option error)) (canSchedule : list string)
    (canNotSchedule : gmap string string)
  : option (list string * gmap string string) :=
  match can with
  | [] => Some (canSchedule, canNotSchedule)
  | b :: can' =>
      match nodeNames !! i with
      | None => None
      | Some name =>
          if b then
            collect (S i) can' nodeNames res (canSchedule ++ [name]) canNotSchedule
          else
            match res !! i with
            | Some (Some err) =>
                collect (S i) can' nodeNames res canSchedule
                  (<[name := err]> canNotSchedule)
            | _ => None
            end
      end
  end.

Definition Predicate_Handler (p : Predicate) (args : extender.ExtenderArgs)
    (d : DealerImpl C) : option extender.ExtenderFilterResult * DealerImpl C :=
  match extender.NodeNames args with
  | None => (None, d)
  | Some nodeNames =>
      let '((can, res), d') := Func p (extender.Pod args) nodeNames d in
      match collect 0 can nodeNames res [] ∅ with
      | None => (None, d')
      | Some (canSchedule, canNotSchedule) =>
          (Some {| extender.ResultNodeNames := canSchedule;
                   extender.FailedNodes := canNotSchedule;
                   extender.Error := "" |}, d')
      end
  end.

Definition NewNanoGPUPredicate (sched : nat → list nat)
    (policySpec : PolicySpec) (isLoadSchedule : bool) : Predicate :=
  {| PredicateName := "NanoGPUFilter";
     Func := fun pod nodeNames d =>
               Assume sched nodeNames pod policySpec isLoadSchedule d |}.

(** [Prioritize]: one [HostPriority] per score, [for i, score := range
    scores]; [None] is the panic of [nodeNames[i]] out of range. *)
Fixpoint priorities (i : nat) (scores : list Z) (nodeNames : list string)
    (priorityList : list extender.HostPriority)
  : option (list extender.HostPriority) :=
  match scores with
  | [] => Some priorityList
  | score :: scores' =>
      match nodeNames !! i with
      | None => None
      | Some name =>
          if decide (i < length priorityList) then
            priorities (S i) scores' nodeNames
              (<[i := {| extender.Host := name; extender.HostScore := score |}]>
                 priorityList)
          else None
      end
  end.

Definition Prioritize_Handler (policySpec : PolicySpec) (isLoadSchedule : bool)
    (args : extender.ExtenderArgs) (d : DealerImpl C)
  : option (list extender.HostPriority) * DealerImpl C :=
  match extender.NodeNames args with
  | None => (None, d)
  | Some nodeNames =>
      let '(scores, d') :=
        Score nodeNames (extender.Pod args) policySpec isLoadSchedule d in
      (priorities 0 scores nodeNames
         (replicate (length nodeNames)
            {| extender.Host := ""; extender.HostScore := 0 |}), d')
  end.

End Scheduler.

(** ** The node engine of the specification

    An instance of [NodeEngine]: the node, the GPU counters, the demand, the
    plan and the raters as sections 3, 4.1, 4.2 and 4.4 of the specification
    describe them, in integers. *)

Module SpecEngine.

(** Modelled from the spec: a GPU (section 3), total and committed core
    and memory units; its index is its position on the node. *)
Record GPU := {
  CoreTotal : Z;
  MemoryTotal : Z;
  CoreCommitted : Z;
  MemoryCommitted : Z;
}.

(** Modelled from the spec: one container request of a Demand. *)
Record ContainerRequest := {
  Core : Z;
  Memory : Z;
}.

#[export] Instance ContainerRequest_eq_dec : EqDecision ContainerRequest :=
  ltac:(solve_decision).

Definition Demand := list ContainerRequest.

(** Modelled from the spec: a Plan is the chosen GPU indices, one per
    container of the demand. *)
Record Plan := {
  PlanDemand : Demand;
  PlanGPUIndexes : list nat;
}.

(** Modelled from the spec: the two built-in scoring policies. *)
Inductive Rater := BinPack | Spread.

(** Modelled from the spec: node name, ordered GPUs, rater, and the
    tentative plan recorded by Assume. *)
Record NodeInfo := {
  Name : string;
  GPUs : list GPU;
  NodeRater : Rater;
  TentativePlan : option Plan;
}.

Definition set_GPUs (gs : list GPU) (ni : NodeInfo) : NodeInfo :=
  {| Name := Name ni; GPUs := gs; NodeRater := NodeRater ni;
     TentativePlan := TentativePlan ni |}.

Definition set_TentativePlan (p : option Plan) (ni : NodeInfo) : NodeInfo :=
  {| Name := Name ni; GPUs := GPUs ni; NodeRater := NodeRater ni;
     TentativePlan := p |}.

(** *** Demand and plan of a pod (section 4.1) *)

(** Modelled from the spec: a container is GPU-bearing iff it declares a
    core request in 1..100 and a positive memory request. *)
Definition gpuBearing (c : v1.Container) : bool :=
  bool_decide (1 ≤ v1.GPUCore c ≤ 100)%Z && bool_decide (0 < v1.GPUMemory c)%Z.

(** Modelled from the spec: the Demand of a pod, in container order. *)
Definition NewDemandFromPod (pod : v1.Pod) : Demand :=
  (λ c, {| Core := v1.GPUCore c; Memory := v1.GPUMemory c |})
    <$> filter (λ c, gpuBearing c = true) (v1.Containers pod).

(** Modelled from the spec: the annotation that holds the plan, a
    comma-separated list of GPU indices. *)
Definition AnnotationGPUIndexes : string := "nano-gpu/gpu-indexes".

Definition digit (a : ascii) : option nat :=
  let n := nat_of_ascii a in
  if decide (48 ≤ n ≤ 57)%nat then Some (n - 48)%nat else None.

Fixpoint parseDigits (acc : nat) (s : string) : option nat :=
  match s with
  | EmptyString => Some acc
  | String a s' =>
      match digit a with
      | Some k => parseDigits (10 * acc + k)%nat s'
      | None => None
      end
  end.

Definition parseIndex (s : string) : option nat :=
  match s with
  | EmptyString => None
  | _ => parseDigits 0 s
  end.

Fixpoint splitCommas (cur : string) (s : string) : list string :=
  match s with
  | EmptyString => [String.rev cur]
  | String a s' =>
      if decide (a = ","%char) then String.rev cur :: splitCommas EmptyString s'
      else splitCommas (String a cur) s'
  end.

Definition parseIndexes (s : string) : option (list nat) :=
  match s with
  | EmptyString => Some []
  | _ => mapM parseIndex (splitCommas EmptyString s)
  end.

Definition printIndexes (l : list nat) : string :=
  String.concat "," (pretty <$> l).

(** Modelled from the spec: the Plan of a pod from its annotation;
    MalformedPlan when the annotation is absent, not numeric, or its
    count differs from the demand's. *)
Definition NewPlanFromPod (pod : v1.Pod) : error + Plan :=
  match v1.Annotations pod !! AnnotationGPUIndexes with
  | None => inl "malformed plan: no gpu index annotation"
  | Some s =>
      match parseIndexes s with
      | None => inl "malformed plan: gpu index is not a number"
      | Some idx =>
          if decide (length idx = length (NewDemandFromPod pod)) then
            inr {| PlanDemand := NewDemandFromPod pod; PlanGPUIndexes := idx |}
          else inl "malformed plan: gpu index count mismatch"
      end
  end.

(** Modelled from the spec: Bind stamps the pod with the chosen indices. *)
Definition GetUpdatedPodAnnotationSpec (pod : v1.Pod) (indexes : list nat) : v1.Pod :=
  {| v1.UID := v1.UID pod; v1.Namespace := v1.Namespace pod;
     v1.Name := v1.Name pod; v1.NodeName := v1.NodeName pod;
     v1.Annotations :=
       <[AnnotationGPUIndexes := printIndexes indexes]> (v1.Annotations pod);
     v1.Containers := v1.Containers pod |}.

(** *** Fit, commit and revert (section 4.2) *)

(** Modelled from the spec: the single-GPU fit test. *)
Definition fits (r : ContainerRequest) (g : GPU) : bool :=
  bool_decide (Core r ≤ CoreTotal g - CoreCommitted g)%Z
  && bool_decide (Memory r ≤ MemoryTotal g - MemoryCommitted g)%Z.

(** Modelled from the spec: commit adds the request to the committed
    totals, revert subtracts it. *)
Definition commit (r : ContainerRequest) (g : GPU) : GPU :=
  {| CoreTotal := CoreTotal g; MemoryTotal := MemoryTotal g;
     CoreCommitted := CoreCommitted g + Core r;
     MemoryCommitted := MemoryCommitted g + Memory r |}.

Definition revert (r : ContainerRequest) (g : GPU) : GPU :=
  {| CoreTotal := CoreTotal g; MemoryTotal := MemoryTotal g;
     CoreCommitted := CoreCommitted g - Core r;
     MemoryCommitted := MemoryCommitted g - Memory r |}.

Definition commitAt (i : nat) (r : ContainerRequest) (gs : list GPU) : list GPU :=
  alter (commit r) i gs.

Definition revertAt (i : nat) (r : ContainerRequest) (gs : list GPU) : list GPU :=
  alter (revert r) i gs.

(** Modelled from the spec: the residual of a GPU after a placement, core
    first, and the rater's preference between two residuals: bin-pack
    prefers the smaller one, spread the larger one. *)
Definition residual (r : ContainerRequest) (g : GPU) : Z * Z :=
  (CoreTotal g - CoreCommitted g - Core r,
   MemoryTotal g - MemoryCommitted g - Memory r)%Z.

Definition smaller (a b : Z * Z) : bool :=
  bool_decide (a.1 < b.1)%Z || (bool_decide (a.1 = b.1) && bool_decide (a.2 < b.2)%Z).

Definition prefers (rater : Rater) (a b : Z * Z) : bool :=
  match rater with
  | BinPack => smaller a b
  | Spread => smaller b a
  end.

(** Modelled from the spec: among the GPUs the request fits on, the one the
    rater prefers; ties go to the lower index. *)
Fixpoint chooseFrom (rater : Rater) (r : ContainerRequest) (i : nat)
    (gs : list GPU) (best : option (nat * GPU)) : option nat :=
  match gs with
  | [] => fst <$> best
  | g :: gs' =>
      let best' :=
        if fits r g then
          match best with
          | None => Some (i, g)
          | Some (j, h) =>
              if prefers rater (residual r g) (residual r h)
              then Some (i, g) else best
          end
        else best in
      chooseFrom rater r (S i) gs' best'
  end.

Definition choose (rater : Rater) (r : ContainerRequest) (gs : list GPU) : option nat :=
  chooseFrom rater r 0 gs None.

Definition insufficient (r : ContainerRequest) (gs : list GPU) : error :=
  if forallb (λ g, negb (bool_decide (Core r ≤ CoreTotal g - CoreCommitted g)%Z)) gs
  then "gpu core insufficient"
  else "gpu memory insufficient".

Definition rollback (chosen : list (nat * ContainerRequest)) (gs : list GPU) : list GPU :=
  foldl (λ gs' c, revertAt c.1 c.2 gs') gs chosen.

(** Modelled from the spec: the greedy fit, one container after the other,
    committing as it goes; [chosen] holds the commits made so far, latest
    first.  When a container fits nowhere the commits made for the earlier
    containers are rolled back before the failure is reported. *)
Fixpoint fit (rater : Rater) (demand : Demand)
    (chosen : list (nat * ContainerRequest)) (gs : list GPU)
  : (error + list nat) * list GPU :=
  match demand with
  | [] => (inr (rev (fst <$> chosen)), gs)
  | r :: demand' =>
      match choose rater r gs with
      | None => (inl (insufficient r gs), rollback chosen gs)
      | Some i => fit rater demand' ((i, r) :: chosen) (commitAt i r gs)
      end
  end.

(** *** Node operations (section 4.4) *)

Definition cleanPlan (ni : NodeInfo) : NodeInfo := set_TentativePlan None ni.

(** Modelled from the spec: Assume runs the fit, commits the counters and
    records the tentative plan; failure returns false and the reason. *)
Definition Assume (demand : Demand) (ni : NodeInfo) : (bool * option error) * NodeInfo :=
  match fit (NodeRater ni) demand [] (GPUs ni) with
  | (inr idx, gs) =>
      ((true, None),
       set_TentativePlan (Some {| PlanDemand := demand; PlanGPUIndexes := idx |})
         (set_GPUs gs ni))
  | (inl err, gs) => ((false, Some err), set_GPUs gs ni)
  end.

(** Modelled from the spec: scores are clamped to [[ScoreMin, ScoreMax]]. *)
Definition ScoreMin : Z := 0.
Definition ScoreMax : Z := 10.

Definition clamp (s : Z) : Z := Z.max ScoreMin (Z.min ScoreMax s).

(** Modelled from the spec: the per-GPU score of a placement, out of 10:
    the share of the card's core units in use after it (bin-pack) or left
    free after it (spread). *)
Definition gpuScore (rater : Rater) (r : ContainerRequest) (g : GPU) : Z :=
  match rater with
  | BinPack => (10 * (CoreCommitted g + Core r)) `div` Z.max 1 (CoreTotal g)
  | Spread => (10 * (CoreTotal g - CoreCommitted g - Core r)) `div` Z.max 1 (CoreTotal g)
  end%Z.

Fixpoint planScore (rater : Rater) (demand : Demand) (idx : list nat)
    (gs : list GPU) : Z :=
  match demand, idx with
  | r :: demand', i :: idx' =>
      match gs !! i with
      | Some g => (gpuScore rater r g + planScore rater demand' idx' (commitAt i r gs))%Z
      | None => 0%Z
      end
  | _, _ => 0%Z
  end.

(** Modelled from the spec: Score runs the fit without committing; the
    load-aware adjustment is a floating-point weighting of timed samples
    and is left out. *)
Definition Score (demand : Demand) (ni : NodeInfo) : Z * NodeInfo :=
  match fit (NodeRater ni) demand [] (GPUs ni) with
  | (inr idx, _) => (clamp (planScore (NodeRater ni) demand idx (GPUs ni)), ni)
  | (inl _, _) => (ScoreMin, ni)
  end.

(** Modelled from the spec: Bind promotes the tentative plan. *)
Definition Bind (demand : Demand) (ni : NodeInfo) : (error + Plan) * NodeInfo :=
  match TentativePlan ni with
  | Some plan =>
      if decide (PlanDemand plan = demand) then (inr plan, cleanPlan ni)
      else (inl "no assumed plan for the pod", ni)
  | None => (inl "no assumed plan for the pod", ni)
  end.

(** Modelled from the spec: Allocate commits the counters of a decided
    plan; a plan that names no GPU of the node or does not fit is an
    error and commits nothing. *)
Fixpoint allocate (demand : Demand) (idx : list nat) (gs : list GPU)
  : option (list GPU) :=
  match demand, idx with
  | [], [] => Some gs
  | r :: demand', i :: idx' =>
      match gs !! i with
      | Some g => if fits r g then allocate demand' idx' (commitAt i r gs) else None
      | None => None
      end
  | _, _ => None
  end.

Definition Allocate (plan : Plan) (ni : NodeInfo) : option error * NodeInfo :=
  match allocate (PlanDemand plan) (PlanGPUIndexes plan) (GPUs ni) with
  | Some gs => (None, set_GPUs gs ni)
  | None => (Some "allocate: plan does not fit the node", ni)
  end.

(** Modelled from the spec: Release subtracts the counters of a plan. *)
Fixpoint release (demand : Demand) (idx : list nat) (gs : list GPU)
  : option (list GPU) :=
  match demand, idx with
  | [], [] => Some gs
  | r :: demand', i :: idx' =>
      match gs !! i with
      | Some _ => release demand' idx' (revertAt i r gs)
      | None => None
      end
  | _, _ => None
  end.

Definition Release (plan : Plan) (ni : NodeInfo) : option error * NodeInfo :=
  match release (PlanDemand plan) (PlanGPUIndexes plan) (GPUs ni) with
  | Some gs => (None, set_GPUs gs ni)
  | None => (Some "release: plan names no gpu of the node", ni)
  end.

(** Modelled from the spec: a node has [GPUCount] cards of 100 core units
    and [GPUMemoryMiB] memory units each, nothing committed. *)
Definition NewNodeInfo (name : string) (node : v1.Node) (rater : Rater) : NodeInfo :=
  {| Name := name;
     GPUs := replicate (v1.GPUCount node)
               {| CoreTotal := 100; MemoryTotal := v1.GPUMemoryMiB node;
                  CoreCommitted := 0; MemoryCommitted := 0 |};
     NodeRater := rater;
     TentativePlan := None |}.

(** Modelled from the spec: the metric cache, node name to card index to
    a (value, timestamp) sample. *)
Definition UsageMap : Type := gmap string (gmap nat (Z * Z)).

Definition engine : NodeEngine :=
  Build_NodeEngine NodeInfo Demand Plan Rater string UsageMap UsageMap
    ScoreMin ∅ ∅
    NewDemandFromPod NewPlanFromPod PlanGPUIndexes GetUpdatedPodAnnotationSpec
    NewNodeInfo Name cleanPlan
    (λ demand _ _ _ _ ni, Assume demand ni)
    (λ demand _ _ _ _ ni, Score demand ni)
    (λ demand _ _ _ _ ni, Bind demand ni)
    Allocate Release.

End SpecEngine.

(** ** A scripted cluster

    A cluster for the examples: a node cache, the stored pods, and scripts
    for the outcome of the next [Update] and [Bind] calls ([None]: the call
    succeeds; an exhausted script: every further call succeeds).  It counts
    the [Update] calls and keeps the Bindings it created. *)

Module Mock.

Record Cluster := {
  nodes : gmap string v1.Node;
  pods : list v1.Pod;
  updateScript : list (option error);
  bindScript : list (option error);
  updateCalls : nat;
  bindings : list v1.Binding;
}.

Definition named (ns name : string) (p : v1.Pod) : bool :=
  bool_decide (v1.Namespace p = ns) && bool_decide (v1.Name p = name).

Definition notFound (name : string) : error := "pods " ++ name ++ " not found".

Definition get (c : Cluster) (ns name : string) : error + v1.Pod :=
  match filter (λ p, named ns name p = true) (pods c) with
  | p :: _ => inr p
  | [] => inl (notFound name)
  end.

Definition list_pods (c : Cluster) (node : option string) : error + list v1.Pod :=
  match node with
  | None => inr (pods c)
  | Some n => inr (filter (λ p, v1.NodeName p = n) (pods c))
  end.

Definition replacePod (new : v1.Pod) (p : v1.Pod) : v1.Pod :=
  if named (v1.Namespace new) (v1.Name new) p then new else p.

Definition update (c : Cluster) (ns : string) (pod : v1.Pod) : Cluster * (error + v1.Pod) :=
  let c' store :=
    {| nodes := nodes c; pods := store; updateScript := tail (updateScript c);
       bindScript := bindScript c; updateCalls := S (updateCalls c);
       bindings := bindings c |} in
  match updateScript c with
  | Some err :: _ => (c' (pods c), inl err)
  | _ =>
      match get c ns (v1.Name pod) with
      | inl err => (c' (pods c), inl err)
      | inr _ => (c' (replacePod pod <$> pods c), inr pod)
      end
  end.

Definition placePod (b : v1.Binding) (p : v1.Pod) : v1.Pod :=
  if named (v1.BindingNamespace b) (v1.BindingName b) p then
    {| v1.UID := v1.UID p; v1.Namespace := v1.Namespace p; v1.Name := v1.Name p;
       v1.NodeName := v1.TargetName b; v1.Annotations := v1.Annotations p;
       v1.Containers := v1.Containers p |}
  else p.

Definition bind (c : Cluster) (ns : string) (b : v1.Binding) : Cluster * option error :=
  match bindScript c with
  | Some err :: rest =>
      ({| nodes := nodes c; pods := pods c; updateScript := updateScript c;
          bindScript := rest; updateCalls := updateCalls c;
          bindings := bindings c |}, Some err)
  | _ =>
      ({| nodes := nodes c; pods := placePod b <$> pods c;
          updateScript := updateScript c; bindScript := tail (bindScript c);
          updateCalls := updateCalls c; bindings := bindings c ++ [b] |}, None)
  end.

Definition getNode (c : Cluster) (name : string) : error + v1.Node :=
  match nodes c !! name with
  | Some n => inr n
  | None => inl ("node " ++ name ++ " not found")
  end.

Definition api : ClusterAPI Cluster :=
  {| NodeLister_Get := getNode; Pods_List := list_pods; Pods_Get := get;
     Pods_Update := update; Pods_Bind := bind |}.

(** The node of the specification's scenarios: two cards of 100 core units
    and 16384 MiB. *)
Definition node2 (name : string) : v1.Node :=
  {| v1.NodeObjName := name; v1.NodeAnnotations := None;
     v1.GPUCount := 2; v1.GPUMemoryMiB := 16384 |}.

Definition mkPod (uid node : string) (cs : list (Z * Z)) : v1.Pod :=
  {| v1.UID := uid; v1.Namespace := "default"; v1.Name := uid;
     v1.NodeName := node; v1.Annotations := ∅;
     v1.Containers := (λ c, {| v1.GPUCore := c.1; v1.GPUMemory := c.2 |}) <$> cs |}.

Definition cluster (ps : list v1.Pod) (us bs : list (option error)) : Cluster :=
  {| nodes := {[ "n1" := node2 "n1" ]}; pods := ps; updateScript := us;
     bindScript := bs; updateCalls := 0; bindings := [] |}.

(** A dealer on the scripted cluster with the engine of the specification. *)
Definition Dealer : Type := @DealerImpl Cluster SpecEngine.engine.

Definition dealer (c : Cluster) : Dealer :=
  {| Client := c; DealerRater := SpecEngine.BinPack : @Rater SpecEngine.engine;
     PodMaps := ∅; NodeMaps := ∅;
     CoreUsage := (∅ : @CoreUsageMap SpecEngine.engine);
     MemoryUsage := (∅ : @MemoryUsageMap SpecEngine.engine);
     ReleasedPodMap := ∅ |}.

End Mock.

(** ** Notions used by the statements *)

Section Notions.
Context {C : Type} {api : ClusterAPI C} {eng : NodeEngine}.

(** The node name cannot be resolved to a [NodeInfo]: [getNodeInfo] fails. *)
Definition unresolvable (name : string) (d : DealerImpl C) : Prop :=
  ∃ err, fst (getNodeInfo name d) = inl err.

(** The names of [ns] whose entry of [can] is true, in the order of [ns]. *)
Definition passingNames (ns : list string) (can : list bool) : list string :=
  fst <$> filter (λ p, p.2 = true) (zip ns can).

(** The operations of the [Dealer] interface that change the dealer. *)
Inductive Op :=
  | OpAssume (sched : nat → list nat) (nodes : list string) (pod : v1.Pod)
      (policySpec : PolicySpec) (isLoadSchedule : bool)
  | OpScore (nodes : list string) (pod : v1.Pod)
      (policySpec : PolicySpec) (isLoadSchedule : bool)
  | OpBind (node : string) (pod : v1.Pod)
      (policySpec : PolicySpec) (isLoadSchedule : bool)
  | OpAllocate (pod : v1.Pod)
  | OpRelease (pod : v1.Pod)
  | OpForget (pod : v1.Pod).

Definition run (op : Op) (d : DealerImpl C) : DealerImpl C :=
  match op with
  | OpAssume sched nodes pod ps il => snd (Assume sched nodes pod ps il d)
  | OpScore nodes pod ps il => snd (Score nodes pod ps il d)
  | OpBind node pod ps il => snd (Bind node pod ps il d)
  | OpAllocate pod => snd (Allocate pod d)
  | OpRelease pod => snd (Release pod d)
  | OpForget pod => snd (Forget pod d)
  end.

(** The states of a dealer: made by [NewDealer], then any operations, with
    the cluster changing in between. *)
Inductive reachable : DealerImpl C → Prop :=
  | reach_new c rater d : NewDealer c rater = inr d → reachable d
  | reach_cluster c d : reachable d → reachable (set_Client c d)
  | reach_op op d : reachable d → reachable (run op d).

(** The operation puts no UID into [PodMaps] that [ReleasedPodMap] holds. *)
Definition admitsNoReleased (op : Op) (d : DealerImpl C) : Prop :=
  ∀ u, u ∈ ReleasedPodMap d → PodMaps d !! u = None → PodMaps (run op d) !! u = None.

Inductive reachableGuarded : DealerImpl C → Prop :=
  | guarded_new c rater d : NewDealer c rater = inr d → reachableGuarded d
  | guarded_cluster c d : reachableGuarded d → reachableGuarded (set_Client c d)
  | guarded_op op d :
      reachableGuarded d → admitsNoReleased op d → reachableGuarded (run op d).

(** [d'] differs from [d] in [NodeMaps] and [PodMaps] at most. *)
Definition sameOutside (d d' : DealerImpl C) : Prop :=
  Client d' = Client d
  ∧ DealerRater d' = DealerRater d
  ∧ CoreUsage d' = CoreUsage d
  ∧ MemoryUsage d' = MemoryUsage d
  ∧ ReleasedPodMap d' = ReleasedPodMap d.

(** The three slices of [Assume] have length [n]. *)
Definition sized (n : nat) (w : assumeWork) : Prop :=
  length (ans w) = n ∧ length (res w) = n ∧ length (nodeInfos w) = n.

(** Slot [j] is the same in [w] and [w']. *)
Definition sameSlot (w w' : assumeWork) (j : nat) : Prop :=
  ans w' !! j = ans w !! j ∧ res w' !! j = res w !! j
  ∧ nodeInfos w' !! j = nodeInfos w !! j.

(** Slot [i] points to the stored node [name] / holds a resolution
    failure with its reason. *)
Definition slotResolved (w : assumeWork) (d : DealerImpl C) (i : nat)
    (name : string) : Prop :=
  nodeInfos w !! i = Some (Some name) ∧ is_Some (NodeMaps d !! name).

Definition slotFailed (w : assumeWork) (i : nat) : Prop :=
  nodeInfos w !! i = Some None ∧ ans w !! i = Some false
  ∧ ∃ err, res w !! i = Some (Some err).

(** Every false answer has its reason, or its slot is still to be
    processed, among [pending]. *)
Definition answered (pending : list nat) (w : assumeWork) (d : DealerImpl C) : Prop :=
  length (ans w) = length (nodeInfos w)
  ∧ length (res w) = length (nodeInfos w)
  ∧ (∀ i name, nodeInfos w !! i = Some (Some name) → is_Some (NodeMaps d !! name))
  ∧ (∀ i, ans w !! i = Some false →
       (∃ err, res w !! i = Some (Some err))
       ∨ (i ∈ pending ∧ ∃ name, nodeInfos w !! i = Some (Some name))).

(** The workers process every index of the channel once. *)
Definition fairSchedule (sched : nat → list nat) (n : nat) : Prop :=
  sched n ≡ₚ seq 0 n.

(** [Bind] gets as far as the pod update: the node resolves, the node
    lister has it and [NodeInfo.Bind] yields a plan; [d2] is the dealer at
    that point and [indexes] the plan's GPU indices. *)
Definition reachesUpdate (node : string) (pod : v1.Pod) (ps : PolicySpec)
    (il : bool) (d d2 : DealerImpl C) (indexes : list nat) : Prop :=
  ∃ ni d1 nodeObj plan ni',
    getNodeInfo node d = (inr ni, d1)
    ∧ NodeLister_Get (Client d1) (NodeInfo_Name ni) = inr nodeObj
    ∧ NodeInfo_Bind (NewDemandFromPod pod) (CoreUsage d1) (MemoryUsage d1)
        ps il ni = (inr plan, ni')
    ∧ d2 = store_node node ni' d1
    ∧ indexes = GPUIndexes plan.

(** The Binding [Bind] creates for [newPod] on [node]. *)
Definition bindingOf (node : string) (newPod : v1.Pod) : v1.Binding :=
  {| v1.BindingNamespace := v1.Namespace newPod;
     v1.BindingName := v1.Name newPod;
     v1.BindingUID := v1.UID newPod;
     v1.TargetKind := "Node";
     v1.TargetName := node |}.

(** [NodeInfo.Assume] reports a reason whenever it answers false. *)
Definition assumeGivesReason : Prop :=
  ∀ demand cu mu ps il ni ni',
    NodeInfo_Assume demand cu mu ps il ni ≠ ((false, None), ni').

(** A failed [NodeInfo.Allocate] leaves the node as it was. *)
Definition allocateFailsClean : Prop :=
  ∀ plan ni err ni', NodeInfo_Allocate plan ni = (Some err, ni') → ni' = ni.

(** The dealer [NewDealer] starts from, before it seeds any node. *)
Definition freshDealer (clientset : C) (rater : Rater) : DealerImpl C :=
  {| Client := clientset; DealerRater := rater; PodMaps := ∅; NodeMaps := ∅;
     CoreUsage := emptyCoreUsage; MemoryUsage := emptyMemoryUsage;
     ReleasedPodMap := ∅ |}.

End Notions.

(** ** Examples on the scripted cluster *)

Module Examples.
Import Mock.

#[local] Existing Instance Mock.api.
#[local] Existing Instance SpecEngine.engine.

(** One container asking for 30 core units and 4096 MiB, not yet placed. *)
Definition pod1 : v1.Pod := mkPod "u1" "" [(30, 4096)%Z].

(** Three containers of 90 core units each: too much for two cards. *)
Definition pod3 : v1.Pod := mkPod "u3" "" [(90, 1024); (90, 1024); (90, 1024)]%Z.

(** Two containers of 60 core units each: one card each. *)
Definition pod2 : v1.Pod := mkPod "u2" "" [(60, 8192); (60, 8192)]%Z.

(** A pod already running on [n1], card 0. *)
Definition bound1 : v1.Pod :=
  SpecEngine.GetUpdatedPodAnnotationSpec (mkPod "u1" "n1" [(30, 4096)%Z]) [0%nat].

(** A pod running on [n1], card 1, that the dealer has never seen. *)
Definition bound8 : v1.Pod :=
  SpecEngine.GetUpdatedPodAnnotationSpec (mkPod "u8" "n1" [(50, 2048)%Z]) [1%nat].

(** A pod on [n1] the dealer has never seen. *)
Definition unseen : v1.Pod := mkPod "u8" "n1" [(30, 4096)%Z].

(** A pod said to run on a node the cluster does not know. *)
Definition stray : v1.Pod := mkPod "u9" "n9" [(30, 4096)%Z].

Definition policy : @PolicySpec SpecEngine.engine := "binpack".

(** The dealer after the filter step for [pod1] on [n1], with the given
    script for the [Update] calls to come. *)
Definition assumed (us : list (option error)) : Dealer :=
  snd (Assume fifo ["n1"] pod1 policy false (dealer (cluster [pod1] us []))).

(** The dealer started on a cluster where [bound1] runs. *)
Definition started : Dealer :=
  match NewDealer (cluster [bound1] [] []) SpecEngine.BinPack with
  | inr d => d
  | inl _ => dealer (cluster [bound1] [] [])
  end.

Definition committed (name : string) (d : Dealer) : option (list (Z * Z)) :=
  (λ ni : SpecEngine.NodeInfo,
     (λ g, (SpecEngine.CoreCommitted g, SpecEngine.MemoryCommitted g))
       <$> SpecEngine.GPUs ni) <$> (NodeMaps d !! name).

End Examples.

(** * Properties *)

(** ** [getNodeInfo] *)

Section GetNodeInfo.
Context {C : Type} {api : ClusterAPI C} {eng : NodeEngine}.
Implicit Types (d : DealerImpl C) (name : string).

Lemma getNodeInfo_known name d ni :
  NodeMaps d !! name = Some ni → getNodeInfo name d = (inr ni, d).
Proof. intros Hk. unfold getNodeInfo. by rewrite Hk. Qed.

(** A failed resolution changes nothing. *)
Lemma getNodeInfo_failed name d err d' :
  getNodeInfo name d = (inl err, d') → d' = d ∧ NodeMaps d !! name = None.
Proof.
  unfold getNodeInfo. destruct (NodeMaps d !! name); [done|].
  destruct (NodeLister_Get _ _); [by intros [= _ <-]|].
  destruct (Pods_List _ _); [by intros [= _ <-]|].
  by destruct (replayPods _ _).
Qed.

(** A resolution stores the node it returns, and touches no other node,
    nor the cluster, nor [ReleasedPodMap]. *)
Lemma getNodeInfo_resolved name d ni d' :
  getNodeInfo name d = (inr ni, d') →
  NodeMaps d' !! name = Some ni
  ∧ (∀ n, n ≠ name → NodeMaps d' !! n = NodeMaps d !! n)
  ∧ Client d' = Client d
  ∧ DealerRater d' = DealerRater d
  ∧ CoreUsage d' = CoreUsage d
  ∧ MemoryUsage d' = MemoryUsage d
  ∧ ReleasedPodMap d' = ReleasedPodMap d.
Proof.
  unfold getNodeInfo. destruct (NodeMaps d !! name) as [ni0|] eqn:Hk.
  { intros [= <- <-]. done. }
  destruct (NodeLister_Get _ _); [done|].
  destruct (Pods_List _ _); [done|].
  destruct (replayPods _ _) as [ni1 pm]. intros [= <- <-]. simpl.
  split; [apply lookup_insert_eq|].
  split; [|done]. intros other Hne. by rewrite lookup_insert_ne.
Qed.

Lemma getNodeInfo_keeps name d n ni0 :
  NodeMaps d !! n = Some ni0 →
  NodeMaps (snd (getNodeInfo name d)) !! n = Some ni0.
Proof.
  intros Hn. destruct (getNodeInfo name d) as [[err|ni] d'] eqn:Hg; simpl.
  - apply getNodeInfo_failed in Hg as [-> _]. done.
  - destruct (decide (n = name)) as [->|Hne].
    + rewrite (getNodeInfo_known _ _ _ Hn) in Hg. by injection Hg as <- <-.
    + apply getNodeInfo_resolved in Hg as (_ & Ho & _). by rewrite Ho.
Qed.

(** A name that cannot be resolved stays so while the cluster is the same
    and the name is not stored. *)
Lemma unresolvable_stable name d d' :
  unresolvable name d → Client d' = Client d → NodeMaps d' !! name = None →
  unresolvable name d'.
Proof.
  intros [err He] Hc Hn. unfold unresolvable, getNodeInfo in *.
  rewrite Hn, Hc. destruct (NodeMaps d !! name); [done|].
  destruct (NodeLister_Get _ _); [by eauto|].
  destruct (Pods_List _ _); [by eauto|].
  by destruct (replayPods _ _).
Qed.

Lemma unresolvable_unknown name d : unresolvable name d → NodeMaps d !! name = None.
Proof.
  intros [err He]. destruct (getNodeInfo name d) as [[e|ni] d'] eqn:Hg; [|done].
  by apply getNodeInfo_failed in Hg as [_ ?].
Qed.

(** The node built by the replay does not depend on [PodMaps]. *)
Lemma replay_node_from shared pods :
  ∀ ni (pm pm' : gmap string v1.Pod),
    fst (foldl (replayPod shared) (ni, pm) pods)
    = fst (foldl (replayPod shared) (ni, pm') pods).
Proof.
  induction pods as [|pod pods IH]; intros ni pm pm'; cbn [foldl]; [done|].
  unfold replayPod at 2 4. simpl.
  destruct (NewPlanFromPod pod) as [err|plan]; [apply IH|].
  destruct (NodeInfo_Allocate plan ni) as [[err|] ni1]; apply IH.
Qed.

Lemma replay_node pods ni (pm pm' : gmap string v1.Pod) :
  fst (replayPods pods (ni, pm)) = fst (replayPods pods (ni, pm')).
Proof.
  unfold replayPods. destruct (last pods); [apply replay_node_from|done].
Qed.

(** While a name is not stored, it resolves to the same node in every
    dealer on the same cluster and with the same rater. *)
Lemma getNodeInfo_same_node name d d' :
  Client d' = Client d → DealerRater d' = DealerRater d →
  NodeMaps d !! name = None → NodeMaps d' !! name = None →
  fst (getNodeInfo name d') = fst (getNodeInfo name d).
Proof.
  intros Hc Hr Hn Hn'. unfold getNodeInfo. rewrite Hn, Hn', Hc, Hr.
  destruct (NodeLister_Get _ _) as [err|node]; [done|].
  destruct (Pods_List _ _) as [err|pods]; [done|].
  pose proof (replay_node pods (NewNodeInfo name node (DealerRater d))
                (PodMaps d') (PodMaps d)) as Hsame.
  destruct (replayPods _ _) as [ni1 pm1], (replayPods _ _) as [ni2 pm2]. simpl in *.
  by subst.
Qed.

(** What a name resolves to is not changed by resolving another name. *)
Lemma getNodeInfo_other name other d ni :
  fst (getNodeInfo name d) = inr ni →
  fst (getNodeInfo name (snd (getNodeInfo other d))) = inr ni.
Proof.
  intros Hres. destruct (NodeMaps d !! name) as [ni0|] eqn:Hk.
  - rewrite (getNodeInfo_known _ _ _ Hk) in Hres. injection Hres as ->.
    by rewrite (getNodeInfo_known _ _ ni (getNodeInfo_keeps other d name ni Hk)).
  - destruct (getNodeInfo other d) as [[err|ni1] d1] eqn:Hg; simpl.
    + by apply getNodeInfo_failed in Hg as [-> _].
    + destruct (decide (name = other)) as [->|Hne].
      * rewrite Hg in Hres. injection Hres as ->.
        apply getNodeInfo_resolved in Hg as (Hs & _).
        by rewrite (getNodeInfo_known _ _ _ Hs).
      * apply getNodeInfo_resolved in Hg as (_ & Ho & Hc & Hr & _).
        rewrite <- Hres. apply getNodeInfo_same_node; try done.
        by rewrite Ho.
Qed.

End GetNodeInfo.

(** ** [Forget], [Allocate], [Release] *)

Section Lifecycle.
Context {C : Type} {api : ClusterAPI C} {eng : NodeEngine}.
Implicit Types (d : DealerImpl C) (pod : v1.Pod).

(** C6. [Forget] returns nil; afterwards the pod's UID is in neither
    [PodMaps] nor [ReleasedPodMap]; forgetting twice is forgetting once. *)
Theorem Forget_removes_and_idempotent pod d :
  fst (Forget pod d) = None
  ∧ PodMaps (snd (Forget pod d)) !! v1.UID pod = None
  ∧ (v1.UID pod ∉ ReleasedPodMap (snd (Forget pod d)))
  ∧ Forget pod (snd (Forget pod d)) = Forget pod d.
Proof.
  unfold Forget; simpl. split; [done|].
  split; [apply lookup_delete_eq|].
  split.
  { intros [_ Hx]%elem_of_difference. by apply Hx, elem_of_singleton. }
  unfold set_PodMaps, set_ReleasedPodMap; simpl. do 2 f_equal.
  - apply delete_id, lookup_delete_eq.
  - apply set_eq. intros u. rewrite !elem_of_difference. tauto.
Qed.

(** C10. A pod without a node name makes [Allocate] fail before anything
    is looked up or committed: the dealer is exactly as before. *)
Theorem Allocate_empty_nodename pod d :
  v1.NodeName pod = "" →
  Allocate pod d
  = (Some ("pod " ++ v1.Namespace pod ++ "/" ++ v1.Name pod ++ " nodename is empty"), d).
Proof.
  intros Hn. unfold Allocate. by rewrite decide_True.
Qed.

(** C4, as the code has it.  With the pod's UID absent from [PodMaps]:
    when the pod's node is already in [NodeMaps], [Release] returns nil and
    the dealer is unchanged; when the node resolves only now and the UID is
    still absent after the seeding, [Release] returns nil and does nothing
    beyond that seeding; when the node does not resolve, [Release] returns
    the resolution error and the dealer is unchanged. *)
Theorem Release_absent_uid pod d :
  PodMaps d !! v1.UID pod = None →
  (∀ ni, NodeMaps d !! v1.NodeName pod = Some ni → Release pod d = (None, d))
  ∧ (∀ ni d1, getNodeInfo (v1.NodeName pod) d = (inr ni, d1) →
       PodMaps d1 !! v1.UID pod = None → Release pod d = (None, d1))
  ∧ (∀ err d1, getNodeInfo (v1.NodeName pod) d = (inl err, d1) →
       Release pod d = (Some err, d)).
Proof.
  intros Hu. repeat split.
  - intros ni Hk. unfold Release. rewrite (getNodeInfo_known _ _ _ Hk). by rewrite Hu.
  - intros ni d1 Hg Hu1. unfold Release. rewrite Hg. by rewrite Hu1.
  - intros err d1 Hg. unfold Release. rewrite Hg.
    by apply getNodeInfo_failed in Hg as [-> _].
Qed.

Lemma Allocate_known pod d ni q :
  v1.NodeName pod ≠ "" →
  NodeMaps d !! v1.NodeName pod = Some ni →
  PodMaps d !! v1.UID pod = Some q →
  Allocate pod d = (None, d).
Proof.
  intros Hn Hk Hu. unfold Allocate. rewrite decide_False by done.
  rewrite (getNodeInfo_known _ _ _ Hk). by rewrite Hu.
Qed.

Lemma Allocate_success pod d d1 :
  Allocate pod d = (None, d1) →
  v1.NodeName pod ≠ ""
  ∧ is_Some (NodeMaps d1 !! v1.NodeName pod)
  ∧ is_Some (PodMaps d1 !! v1.UID pod).
Proof.
  unfold Allocate. case_decide as Hn; [done|].
  destruct (getNodeInfo _ d) as [[err|ni] d'] eqn:Hg; [done|].
  apply getNodeInfo_resolved in Hg as (Hk & _).
  destruct (PodMaps d' !! v1.UID pod) as [q|] eqn:Hu.
  { intros [= <-]. eauto. }
  destruct (NewPlanFromPod pod); [done|].
  destruct (NodeInfo_Allocate _ _) as [[err|] ni']; [done|].
  intros [= <-]. simpl. split; [done|].
  rewrite lookup_insert_eq, lookup_insert_eq. eauto.
Qed.

(** C5, as the code has it.  A pod whose UID is in [PodMaps], whose node
    name is not empty and whose node is in [NodeMaps] makes [Allocate]
    return nil and change nothing; so after an [Allocate] that returned
    nil a second one returns nil and changes nothing; and when a failed
    [NodeInfo.Allocate] leaves the node as it was, [Allocate] after
    [Allocate] gives the result and the state of the first, whatever
    that was. *)
Theorem Allocate_idempotent pod d :
  (∀ ni q, v1.NodeName pod ≠ "" → NodeMaps d !! v1.NodeName pod = Some ni →
     PodMaps d !! v1.UID pod = Some q → Allocate pod d = (None, d))
  ∧ (∀ d1, Allocate pod d = (None, d1) → Allocate pod d1 = (None, d1))
  ∧ (allocateFailsClean → Allocate pod (snd (Allocate pod d)) = Allocate pod d).
Proof.
  split; [intros; by eapply Allocate_known|].
  split.
  { intros d1 (Hn & [ni Hk] & [q Hu])%Allocate_success. by eapply Allocate_known. }
  intros Hclean. destruct (Allocate pod d) as [[err|] d1] eqn:Ha; simpl.
  2:{ apply Allocate_success in Ha as (Hn & [ni Hk] & [q Hu]).
      by eapply Allocate_known. }
  revert Ha. unfold Allocate. case_decide as Hn.
  { by intros [= <- <-]. }
  destruct (getNodeInfo _ d) as [[e|ni] d'] eqn:Hg.
  { intros [= <- <-]. apply getNodeInfo_failed in Hg as Hg'. destruct Hg' as [-> _].
    by rewrite Hg. }
  apply getNodeInfo_resolved in Hg as (Hk & _).
  destruct (PodMaps d' !! v1.UID pod) as [q|] eqn:Hu; [done|].
  destruct (NewPlanFromPod pod) as [e|plan] eqn:Hp.
  { intros [= <- <-]. rewrite (getNodeInfo_known _ _ _ Hk). by rewrite Hu. }
  destruct (NodeInfo_Allocate plan ni) as [[e|] ni'] eqn:Hal; [|done].
  intros [= <- <-]. apply Hclean in Hal as Heq. subst ni'.
  assert (Hid : store_node (v1.NodeName pod) ni d' = d').
  { unfold store_node, set_NodeMaps. rewrite insert_id by done. by destruct d'. }
  rewrite Hid, (getNodeInfo_known _ _ _ Hk), Hu, Hal. by rewrite Hid.
Qed.

End Lifecycle.

(** ** [Score] *)

Section ScoreProperties.
Context {C : Type} {api : ClusterAPI C} {eng : NodeEngine}.
Implicit Types (d : DealerImpl C) (scores : list Z).

Lemma scoreNode_step demand ps il i name scores d :
  let st := scoreNode demand ps il i name (scores, d) in
  length (fst st) = length scores
  ∧ (∀ j, j ≠ i → fst st !! j = scores !! j)
  ∧ (unresolvable name d → i < length scores → fst st !! i = Some ScoreMin)
  ∧ (∀ n, unresolvable n d → unresolvable n (snd st)).
Proof.
  unfold scoreNode. destruct (getNodeInfo name d) as [[err|ni] d'] eqn:Hg.
  - apply getNodeInfo_failed in Hg as [-> _]. simpl.
    split; [by rewrite length_insert|].
    split; [by intros j Hj; rewrite list_lookup_insert_ne|].
    split; [by intros _ Hi; rewrite list_lookup_insert_eq|done].
  - destruct (NodeInfo_Score _ _ _ _ _ _) as [s ni'] eqn:Hs. simpl.
    split; [by rewrite length_insert|].
    split; [by intros j Hj; rewrite list_lookup_insert_ne|].
    split.
    { intros [err He]. by rewrite Hg in He. }
    intros n Hn. pose proof (getNodeInfo_resolved _ _ _ _ Hg) as (_ & Ho & Hc & _).
    eapply unresolvable_stable; [done|done|]. simpl.
    assert (n ≠ name) as Hne.
    { intros ->. destruct Hn as [err He]. by rewrite Hg in He. }
    rewrite lookup_insert_ne by done. rewrite Ho by done.
    by apply unresolvable_unknown.
Qed.

Lemma scoreNodes_spec demand ps il names :
  ∀ i scores d,
    let st := scoreNodes demand ps il i names (scores, d) in
    length (fst st) = length scores
    ∧ (∀ j, j < i → fst st !! j = scores !! j)
    ∧ (∀ k name, names !! k = Some name → unresolvable name d →
         i + k < length scores → fst st !! (i + k) = Some ScoreMin).
Proof.
  induction names as [|name names IH]; intros i scores d; cbn [scoreNodes].
  { split; [done|]. split; [done|]. intros k name Hk. by rewrite lookup_nil in Hk. }
  pose proof (scoreNode_step demand ps il i name scores d) as (Hlen & Hoth & Hmin & Hst).
  destruct (scoreNode demand ps il i name (scores, d)) as [scores1 d1]; simpl in *.
  specialize (IH (S i) scores1 d1) as (IHlen & IHlow & IHmin).
  split; [by rewrite IHlen|].
  split.
  { intros j Hj. rewrite IHlow by lia. apply Hoth. lia. }
  intros [|k] n Hk Hn Hi; simpl in Hk.
  - injection Hk as <-. rewrite Nat.add_0_r in *.
    rewrite IHlow by lia. by apply Hmin.
  - replace (i + S k) with (S i + k) by lia.
    apply (IHmin k n); [done|by apply Hst|lia].
Qed.

(** C7. [Score] returns one score per node name, and the score of a name
    that cannot be resolved to a [NodeInfo] is [ScoreMin]. *)
Theorem Score_length_and_ScoreMin nodes pod ps il d :
  length (fst (Score nodes pod ps il d)) = length nodes
  ∧ ∀ i name, nodes !! i = Some name → unresolvable name d →
      fst (Score nodes pod ps il d) !! i = Some ScoreMin.
Proof.
  unfold Score.
  pose proof (scoreNodes_spec (NewDemandFromPod pod) ps il nodes 0
                (replicate (length nodes) 0%Z) d) as (Hlen & _ & Hmin).
  rewrite length_replicate in *. split; [done|].
  intros i name Hi Hu. apply (Hmin i name Hi Hu).
  apply lookup_lt_Some in Hi. simpl. lia.
Qed.

End ScoreProperties.

(** ** [Bind] *)

Section BindProperties.
Context {C : Type} {api : ClusterAPI C} {eng : NodeEngine}.
Implicit Types (d : DealerImpl C) (pod : v1.Pod).

Lemma Bind_reaches_update node pod ps il d d2 indexes :
  reachesUpdate node pod ps il d d2 indexes →
  Bind node pod ps il d = updatePod node pod indexes d2.
Proof.
  intros (ni & d1 & nodeObj & plan & ni' & Hg & Hn & Hb & -> & ->).
  unfold Bind. by rewrite Hg, Hn, Hb.
Qed.

(** C1, what the code does.  When the first pod update fails with an
    error that is not the conflict message, [Bind] returns nil: the error
    is dropped, no Binding is created and [PodMaps] is not written. *)
Theorem Bind_drops_update_error node pod ps il d d2 indexes c1 err :
  reachesUpdate node pod ps il d d2 indexes →
  Pods_Update (Client d2)
    (v1.Namespace (GetUpdatedPodAnnotationSpec pod indexes))
    (GetUpdatedPodAnnotationSpec pod indexes) = (c1, inl err) →
  err ≠ OptimisticLockErrorMsg →
  Bind node pod ps il d = (None, set_Client c1 d2).
Proof.
  intros Hr Hu Hne. rewrite (Bind_reaches_update _ _ _ _ _ _ _ Hr).
  unfold updatePod. rewrite Hu. by rewrite decide_False.
Qed.

(** C9. When the first pod update fails with the conflict message, [Bind]
    fetches the pod again and updates once more.  If the fetch fails its
    error is returned.  If the second update fails, with whatever error,
    that error is returned and the cluster has seen these two updates
    only.  If it succeeds, [Bind] goes on to create the Binding for the
    fetched pod, and when that succeeds it records the pod and returns
    nil. *)
Theorem Bind_retries_update_once node pod ps il d d2 indexes c1 :
  reachesUpdate node pod ps il d d2 indexes →
  Pods_Update (Client d2)
    (v1.Namespace (GetUpdatedPodAnnotationSpec pod indexes))
    (GetUpdatedPodAnnotationSpec pod indexes) = (c1, inl OptimisticLockErrorMsg) →
  (∀ err, Pods_Get c1 (v1.Namespace pod) (v1.Name pod) = inl err →
     Bind node pod ps il d = (Some err, set_Client c1 d2))
  ∧ (∀ pod' c2 err,
       Pods_Get c1 (v1.Namespace pod) (v1.Name pod) = inr pod' →
       Pods_Update c1 (v1.Namespace pod')
         (GetUpdatedPodAnnotationSpec pod' indexes) = (c2, inl err) →
       Bind node pod ps il d = (Some err, set_Client c2 d2))
  ∧ (∀ pod' c2 updated,
       Pods_Get c1 (v1.Namespace pod) (v1.Name pod) = inr pod' →
       Pods_Update c1 (v1.Namespace pod')
         (GetUpdatedPodAnnotationSpec pod' indexes) = (c2, inr updated) →
       let newPod := GetUpdatedPodAnnotationSpec pod' indexes in
       (∀ c3, Pods_Bind c2 (v1.Namespace newPod) (bindingOf node newPod) = (c3, None) →
          Bind node pod ps il d =
            (None, set_PodMaps (<[v1.UID pod' := newPod]> (PodMaps d2))
                     (set_Client c3 (set_Client c2 d2))))
       ∧ (∀ c3 err, Pods_Bind c2 (v1.Namespace newPod) (bindingOf node newPod)
                      = (c3, Some err) →
          Bind node pod ps il d = (Some err, set_Client c3 (set_Client c2 d2)))).
Proof.
  intros Hr Hu. rewrite (Bind_reaches_update _ _ _ _ _ _ _ Hr).
  unfold updatePod. rewrite Hu. rewrite decide_True by done.
  split; [by intros err ->|].
  split; [by intros pod' c2 err -> ->|].
  intros pod' c2 updated -> ->. simpl. unfold bindPod, bindingOf. simpl.
  split.
  - by intros c3 ->.
  - by intros c3 err ->.
Qed.

End BindProperties.

(** ** What the operations leave alone *)

Section Frames.
Context {C : Type} {api : ClusterAPI C} {eng : NodeEngine}.
Implicit Types (d : DealerImpl C).

Lemma sameOutside_refl d : sameOutside d d.
Proof. by repeat split. Qed.

Lemma sameOutside_trans d1 d2 d3 :
  sameOutside d1 d2 → sameOutside d2 d3 → sameOutside d1 d3.
Proof.
  intros (?&?&?&?&?) (?&?&?&?&?). repeat split; congruence.
Qed.

Lemma sameOutside_store name ni d : sameOutside d (store_node name ni d).
Proof. by repeat split. Qed.

Lemma sameOutside_PodMaps m d : sameOutside d (set_PodMaps m d).
Proof. by repeat split. Qed.

Lemma sameOutside_getNodeInfo name d : sameOutside d (snd (getNodeInfo name d)).
Proof.
  destruct (getNodeInfo name d) as [[err|ni] d'] eqn:Hg; simpl.
  - apply getNodeInfo_failed in Hg as [-> _]. apply sameOutside_refl.
  - apply getNodeInfo_resolved in Hg as (_ & _ & ? & ? & ? & ? & ?). by repeat split.
Qed.

Lemma sameOutside_resolveNode i name w d :
  sameOutside d (snd (resolveNode i name (w, d))).
Proof.
  unfold resolveNode. pose proof (sameOutside_getNodeInfo name d) as Hs.
  by destruct (getNodeInfo name d) as [[err|ni] d'].
Qed.

Lemma sameOutside_resolveNodes names :
  ∀ i w d, sameOutside d (snd (resolveNodes i names (w, d))).
Proof.
  induction names as [|name names IH]; intros i w d; cbn [resolveNodes].
  { apply sameOutside_refl. }
  pose proof (sameOutside_resolveNode i name w d) as Hs.
  destruct (resolveNode i name (w, d)) as [w1 d1].
  eapply sameOutside_trans; [exact Hs|apply IH].
Qed.

Lemma assumeOne_frame demand ps il w d x :
  let st := assumeOne demand ps il (w, d) x in
  sameOutside d (snd st) ∧ PodMaps (snd st) = PodMaps d.
Proof.
  unfold assumeOne. destruct (nodeInfos w !! x) as [[name|]|]; simpl;
    try (split; [apply sameOutside_refl|done]).
  destruct (NodeMaps d !! name) as [ni|]; simpl;
    try (split; [apply sameOutside_refl|done]).
  destruct (NodeInfo_Assume _ _ _ _ _ _) as [[assumed err] ni']. simpl.
  split; [apply sameOutside_store|done].
Qed.

Lemma assumeAll_frame demand ps il order :
  ∀ w d,
    let st := foldl (assumeOne demand ps il) (w, d) order in
    sameOutside d (snd st) ∧ PodMaps (snd st) = PodMaps d.
Proof.
  induction order as [|x order IH]; intros w d; cbn [foldl].
  { split; [apply sameOutside_refl|done]. }
  pose proof (assumeOne_frame demand ps il w d x) as [Hs Hp].
  destruct (assumeOne demand ps il (w, d) x) as [w1 d1]; simpl in *.
  destruct (IH w1 d1) as [Hs' Hp'].
  split; [by eapply sameOutside_trans|congruence].
Qed.

Lemma sameOutside_Assume sched nodes pod ps il d :
  sameOutside d (snd (Assume sched nodes pod ps il d)).
Proof.
  unfold Assume.
  pose proof (sameOutside_resolveNodes nodes 0 (newAssumeWork (length nodes)) d) as H1.
  destruct (resolveNodes 0 nodes _) as [w1 d1].
  pose proof (assumeAll_frame (NewDemandFromPod pod) ps il
                (sched (length nodes)) w1 d1) as [H2 _].
  destruct (foldl _ _ _) as [w2 d2]. simpl in *.
  by eapply sameOutside_trans.
Qed.

Lemma scoreNode_frame demand ps il i name scores d :
  ReleasedPodMap (snd (scoreNode demand ps il i name (scores, d))) = ReleasedPodMap d.
Proof.
  unfold scoreNode. pose proof (sameOutside_getNodeInfo name d) as (_&_&_&_&Hr).
  destruct (getNodeInfo name d) as [[err|ni] d']; [done|].
  by destruct (NodeInfo_Score _ _ _ _ _ _).
Qed.

Lemma scoreNodes_frame demand ps il names :
  ∀ i scores d,
    ReleasedPodMap (snd (scoreNodes demand ps il i names (scores, d)))
    = ReleasedPodMap d.
Proof.
  induction names as [|name names IH]; intros i scores d; cbn [scoreNodes]; [done|].
  pose proof (scoreNode_frame demand ps il i name scores d) as Hs.
  destruct (scoreNode demand ps il i name (scores, d)) as [s1 d1].
  rewrite IH. exact Hs.
Qed.

Lemma bindPod_released node pod newPod d :
  ReleasedPodMap (snd (bindPod node pod newPod d)) = ReleasedPodMap d.
Proof. unfold bindPod. by destruct (Pods_Bind _ _ _) as [c [err|]]. Qed.

Lemma updatePod_released node pod indexes d :
  ReleasedPodMap (snd (updatePod node pod indexes d)) = ReleasedPodMap d.
Proof.
  unfold updatePod. destruct (Pods_Update _ _ _) as [c1 [err|p]].
  - case_decide; [|done]. destruct (Pods_Get _ _ _) as [e|pod']; [done|].
    destruct (Pods_Update _ _ _) as [c2 [e|p]]; [done|].
    by rewrite bindPod_released.
  - by rewrite bindPod_released.
Qed.

Lemma Bind_released node pod ps il d :
  ReleasedPodMap (snd (Bind node pod ps il d)) = ReleasedPodMap d.
Proof.
  unfold Bind. pose proof (sameOutside_getNodeInfo node d) as (_&_&_&_&Hr).
  destruct (getNodeInfo node d) as [[err|ni] d1]; [done|]. simpl in Hr.
  destruct (NodeLister_Get _ _); [done|].
  destruct (NodeInfo_Bind _ _ _ _ _ _) as [[err|plan] ni']; [done|].
  by rewrite updatePod_released.
Qed.

Lemma Allocate_released pod d :
  ReleasedPodMap (snd (Allocate pod d)) = ReleasedPodMap d.
Proof.
  unfold Allocate. case_decide; [done|].
  pose proof (sameOutside_getNodeInfo (v1.NodeName pod) d) as (_&_&_&_&Hr).
  destruct (getNodeInfo _ d) as [[err|ni] d1]; [done|]. simpl in Hr.
  destruct (PodMaps d1 !! _); [done|].
  destruct (NewPlanFromPod pod); [done|].
  by destruct (NodeInfo_Allocate _ _) as [[err|] ni'].
Qed.

(** A UID in [ReleasedPodMap] after [Release] was there before, or has
    just left [PodMaps]. *)
Lemma Release_released pod d u :
  u ∈ ReleasedPodMap (snd (Release pod d)) →
  u ∈ ReleasedPodMap d ∨ PodMaps (snd (Release pod d)) !! u = None.
Proof.
  unfold Release.
  pose proof (sameOutside_getNodeInfo (v1.NodeName pod) d) as (_&_&_&_&Hr).
  destruct (getNodeInfo _ d) as [[err|ni] d1]; simpl in Hr; rewrite <- Hr.
  { by left. }
  destruct (PodMaps d1 !! _); [|by left].
  destruct (NewPlanFromPod pod); [by left|].
  destruct (NodeInfo_Release _ _) as [[err|] ni']; [by left|]. simpl.
  intros [->%elem_of_singleton|Hu]%elem_of_union; [right|by left].
  apply lookup_delete_eq.
Qed.

Lemma seedPodNode_released d pod :
  ReleasedPodMap (seedPodNode d pod) = ReleasedPodMap d.
Proof.
  unfold seedPodNode. case_decide; [done|].
  by pose proof (sameOutside_getNodeInfo (v1.NodeName pod) d) as (_&_&_&_&Hr).
Qed.

Lemma NewDealer_released c rater d :
  NewDealer c rater = inr d → ReleasedPodMap d = ∅.
Proof.
  unfold NewDealer. destruct (Pods_List c None) as [err|pods]; [done|].
  intros [= <-].
  match goal with |- ReleasedPodMap (foldl _ ?x _) = _ => set (di := x) end.
  assert (ReleasedPodMap di = ∅) as Hdi by done. clearbody di.
  revert di Hdi. induction pods as [|pod pods IH]; intros di Hdi; [done|].
  simpl. apply IH. by rewrite seedPodNode_released.
Qed.

Lemma run_released op d u :
  u ∈ ReleasedPodMap (run op d) →
  u ∈ ReleasedPodMap d ∨ PodMaps (run op d) !! u = None.
Proof.
  destruct op as [sched nodes pod ps il|nodes pod ps il|node pod ps il|pod|pod|pod];
    cbn [run].
  - pose proof (sameOutside_Assume sched nodes pod ps il d) as (_&_&_&_&->). by left.
  - unfold Score. rewrite scoreNodes_frame. by left.
  - rewrite Bind_released. by left.
  - rewrite Allocate_released. by left.
  - apply Release_released.
  - simpl. intros [Hu _]%elem_of_difference. by left.
Qed.

(** [Forget] takes UIDs out of [PodMaps] only. *)
Lemma Forget_admits pod d : admitsNoReleased (OpForget pod) d.
Proof.
  intros u _ Hu. simpl. destruct (decide (v1.UID pod = u)) as [->|Hne].
  - apply lookup_delete_eq.
  - by rewrite lookup_delete_ne.
Qed.

(** C3, as the code has it.  [Allocate], [Bind] and the seeding of a node
    write [PodMaps] without looking at [ReleasedPodMap].  In every state
    reached from [NewDealer] by operations none of which puts into
    [PodMaps] a UID that [ReleasedPodMap] holds at that moment, the key
    sets of [PodMaps] and [ReleasedPodMap] are disjoint. *)
Theorem PodMaps_ReleasedPodMap_disjoint d :
  reachableGuarded d → dom (PodMaps d) ## ReleasedPodMap d.
Proof.
  intros Hreach. apply elem_of_disjoint. intros u Hin Hrel.
  apply elem_of_dom in Hin as [q Hq].
  enough (PodMaps d !! u = None) by congruence. clear q Hq.
  revert u Hrel. induction Hreach as [c rater d Hnew|c d _ IH|op d _ IH Hguard];
    intros u Hrel.
  - apply NewDealer_released in Hnew. rewrite Hnew in Hrel.
    by apply not_elem_of_empty in Hrel.
  - by apply IH.
  - destruct (run_released op d u Hrel) as [Hbefore|Hgone]; [|done].
    apply Hguard; [done|by apply IH].
Qed.

End Frames.

(** ** [Assume]: the two loops *)

Section AssumeLoops.
Context {C : Type} {api : ClusterAPI C} {eng : NodeEngine}.
Implicit Types (d : DealerImpl C) (w : assumeWork).

Lemma resolveNode_step n i name w d :
  sized n w →
  let st := resolveNode i name (w, d) in
  sized n (fst st)
  ∧ (∀ j, j ≠ i → sameSlot w (fst st) j)
  ∧ (i < n →
     (slotResolved (fst st) (snd st) i name
      ∧ ans (fst st) !! i = ans w !! i ∧ res (fst st) !! i = res w !! i)
     ∨ slotFailed (fst st) i)
  ∧ (∀ m ni, NodeMaps d !! m = Some ni → NodeMaps (snd st) !! m = Some ni).
Proof.
  intros (Ha & Hr & Hn). unfold resolveNode.
  pose proof (getNodeInfo_keeps name d) as Hkeep.
  destruct (getNodeInfo name d) as [[err|ni] d'] eqn:Hg; simpl in *.
  - split; [by unfold sized; simpl; rewrite !length_insert|].
    split.
    { intros j Hj. unfold sameSlot; simpl. by rewrite !list_lookup_insert_ne. }
    split; [|done]. intros Hi. right. unfold slotFailed; simpl.
    rewrite !list_lookup_insert_eq by lia. eauto.
  - split; [by unfold sized; simpl; rewrite !length_insert|].
    split.
    { intros j Hj. unfold sameSlot; simpl. by rewrite !list_lookup_insert_ne. }
    split; [|done]. intros Hi. left. unfold slotResolved; simpl.
    rewrite !list_lookup_insert_eq by lia.
    apply getNodeInfo_resolved in Hg as (Hk & _). rewrite Hk. eauto.
Qed.

Lemma resolveNodes_spec n names :
  ∀ i w d,
    sized n w →
    let st := resolveNodes i names (w, d) in
    sized n (fst st)
    ∧ (∀ j, j < i → sameSlot w (fst st) j)
    ∧ (∀ k name, names !! k = Some name → i + k < n →
         (slotResolved (fst st) (snd st) (i + k) name
          ∧ ans (fst st) !! (i + k) = ans w !! (i + k)
          ∧ res (fst st) !! (i + k) = res w !! (i + k))
         ∨ slotFailed (fst st) (i + k))
    ∧ (∀ m ni, NodeMaps d !! m = Some ni → NodeMaps (snd st) !! m = Some ni).
Proof.
  induction names as [|name names IH]; intros i w d Hsz; cbn [resolveNodes].
  { split; [done|]. split; [done|]. split; [|done].
    intros k name Hk. by rewrite lookup_nil in Hk. }
  pose proof (resolveNode_step n i name w d Hsz) as (Hsz1 & Hoth & Hat & Hmono).
  destruct (resolveNode i name (w, d)) as [w1 d1]; simpl in *.
  specialize (IH (S i) w1 d1 Hsz1) as (IHsz & IHlow & IHat & IHmono).
  split; [done|].
  split.
  { intros j Hj. destruct (IHlow j ltac:(lia)) as (?&?&?).
    destruct (Hoth j ltac:(lia)) as (?&?&?). repeat split; congruence. }
  split; [|by eauto].
  intros [|k] nm Hk Hlt; simpl in Hk.
  - injection Hk as <-. rewrite Nat.add_0_r in *.
    destruct (IHlow i ltac:(lia)) as (Ea & Er & En).
    destruct (Hat Hlt) as [([Hs [ni Hni]] & Ha & Hr)|(Hs & Ha & [err Hr])].
    + left. unfold slotResolved. rewrite Ea, Er, En. repeat split; try done.
      exists ni. by apply IHmono.
    + right. unfold slotFailed. rewrite Ea, Er, En. eauto.
  - replace (i + S k) with (S i + k) by lia.
    destruct (IHat k nm Hk ltac:(lia)) as [(Hs & Ha & Hr)|Hf]; [left|by right].
    destruct (Hoth (S i + k) ltac:(lia)) as (Ea & Er & _).
    repeat split; [apply Hs..|congruence|congruence].
Qed.

Lemma resolveNodes_initial nodes d :
  let st := resolveNodes 0 nodes (newAssumeWork (length nodes), d) in
  sized (length nodes) (fst st)
  ∧ (∀ i name, nodes !! i = Some name →
       (slotResolved (fst st) (snd st) i name
        ∧ ans (fst st) !! i = Some false ∧ res (fst st) !! i = Some None)
       ∨ slotFailed (fst st) i)
  ∧ (∀ m ni, NodeMaps d !! m = Some ni → NodeMaps (snd st) !! m = Some ni).
Proof.
  assert (sized (length nodes) (newAssumeWork (length nodes))) as Hsz.
  { unfold sized; simpl. by rewrite !length_replicate. }
  pose proof (resolveNodes_spec (length nodes) nodes 0 _ d Hsz) as (H1 & _ & H3 & H4).
  split; [done|]. split; [|done].
  intros i name Hi. pose proof (lookup_lt_Some _ _ _ Hi) as Hlt.
  destruct (H3 i name Hi ltac:(simpl; lia)) as [(Hs & Ha & Hr)|Hf]; [left|by right].
  simpl in *. split; [done|]. rewrite Ha, Hr; simpl.
  by rewrite !lookup_replicate_2.
Qed.

(** The pointers of the resolved slots name the nodes of the request. *)
Lemma resolveNodes_names nodes d i name :
  let st := resolveNodes 0 nodes (newAssumeWork (length nodes), d) in
  nodeInfos (fst st) !! i = Some (Some name) → nodes !! i = Some name.
Proof.
  pose proof (resolveNodes_initial nodes d) as ((_ & _ & Hlen) & Hat & _).
  simpl. intros Hs. pose proof (lookup_lt_Some _ _ _ Hs) as Hlt.
  rewrite Hlen in Hlt. destruct (lookup_lt_is_Some_2 nodes i Hlt) as [nm Hnm].
  destruct (Hat i nm Hnm) as [([Hs' _] & _)|(Hs' & _)]; congruence.
Qed.

Lemma resolveNode_dealer i name w d :
  snd (resolveNode i name (w, d)) = snd (getNodeInfo name d).
Proof. unfold resolveNode. by destruct (getNodeInfo name d) as [[err|ni] d1]. Qed.

Lemma resolveNodes_keeps names :
  ∀ i w d m ni,
    NodeMaps d !! m = Some ni →
    NodeMaps (snd (resolveNodes i names (w, d))) !! m = Some ni.
Proof.
  induction names as [|name names IH]; intros i w d m ni Hm; [done|].
  cbn [resolveNodes]. pose proof (resolveNode_dealer i name w d) as Hsnd.
  destruct (resolveNode i name (w, d)) as [w1 d1]. simpl in Hsnd. subst d1.
  apply IH. by apply getNodeInfo_keeps.
Qed.

(** After the first loop a node name of the request that resolves is
    stored, as the node it resolved to before the loop. *)
Lemma resolveNodes_resolves names :
  ∀ i w d name ni,
    name ∈ names →
    fst (getNodeInfo name d) = inr ni →
    NodeMaps (snd (resolveNodes i names (w, d))) !! name = Some ni.
Proof.
  induction names as [|nm names IH]; intros i w d name ni Hin Hres.
  { by apply elem_of_nil in Hin. }
  cbn [resolveNodes]. pose proof (resolveNode_dealer i nm w d) as Hsnd.
  pose proof (getNodeInfo_other name nm d ni Hres) as Hres'.
  destruct (resolveNode i nm (w, d)) as [w1 d1]. simpl in Hsnd. subst d1.
  apply elem_of_cons in Hin as [->|Hin]; [|by apply IH].
  apply resolveNodes_keeps.
  destruct (getNodeInfo nm d) as [[err|n1] d1] eqn:Hg; [done|].
  simpl in *. injection Hres as ->.
  by apply getNodeInfo_resolved in Hg as (Hs & _).
Qed.

Lemma assumeOne_step demand ps il w d x :
  let st := assumeOne demand ps il (w, d) x in
  nodeInfos (fst st) = nodeInfos w
  ∧ length (ans (fst st)) = length (ans w)
  ∧ length (res (fst st)) = length (res w)
  ∧ (∀ j, j ≠ x → ans (fst st) !! j = ans w !! j ∧ res (fst st) !! j = res w !! j)
  ∧ (∀ m, is_Some (NodeMaps d !! m) → is_Some (NodeMaps (snd st) !! m)).
Proof.
  unfold assumeOne. destruct (nodeInfos w !! x) as [[name|]|]; simpl; try done.
  destruct (NodeMaps d !! name) as [ni|] eqn:Hk; simpl; try done.
  destruct (NodeInfo_Assume _ _ _ _ _ _) as [[assumed err] ni']. simpl.
  rewrite !length_insert. repeat split; try done.
  - by rewrite list_lookup_insert_ne.
  - by rewrite list_lookup_insert_ne.
  - intros m Hm. destruct (decide (name = m)) as [->|Hne].
    + rewrite lookup_insert_eq. eauto.
    + by rewrite lookup_insert_ne.
Qed.

Lemma assumeOne_answered demand ps il w d x pending :
  assumeGivesReason →
  answered (x :: pending) w d →
  let st := assumeOne demand ps il (w, d) x in
  answered pending (fst st) (snd st).
Proof.
  intros Hreason (Hla & Hlr & Hptr & Hans).
  pose proof (assumeOne_step demand ps il w d x) as (Hn & Hla' & Hlr' & Hoth & Hkeys).
  unfold assumeOne in *.
  destruct (nodeInfos w !! x) as [[name|]|] eqn:Hx; simpl in *.
  - destruct (Hptr x name Hx) as [ni Hni]. rewrite Hni in Hn, Hla', Hlr', Hoth, Hkeys |- *.
    destruct (NodeInfo_Assume _ _ _ _ _ _) as [[assumed err] ni'] eqn:Has.
    simpl in *. pose proof (lookup_lt_Some _ _ _ Hx) as Hlt.
    unfold answered; simpl.
    split; [congruence|]. split; [congruence|].
    split; [by eauto|].
    intros i Hi. destruct (decide (i = x)) as [->|Hne].
    + left. rewrite list_lookup_insert_eq in Hi by lia. injection Hi as ->.
      rewrite list_lookup_insert_eq by lia.
      destruct err as [e|]; [by eauto|]. by destruct (Hreason _ _ _ _ _ _ _ Has).
    + rewrite list_lookup_insert_ne in Hi by done.
      rewrite list_lookup_insert_ne by done.
      destruct (Hans i Hi) as [?|[Hin ?]]; [by left|right].
      split; [|done]. apply elem_of_cons in Hin as [?|?]; done.
  - repeat split; try done. intros i Hi.
    destruct (Hans i Hi) as [?|[Hin [nm Hnm]]]; [by left|right].
    split; [|by eauto]. apply elem_of_cons in Hin as [->|?]; [congruence|done].
  - repeat split; try done. intros i Hi.
    destruct (Hans i Hi) as [?|[Hin [nm Hnm]]]; [by left|right].
    split; [|by eauto]. apply elem_of_cons in Hin as [->|?]; [congruence|done].
Qed.

Lemma assumeAll_answered demand ps il order :
  assumeGivesReason →
  ∀ w d,
    answered order w d →
    let st := foldl (assumeOne demand ps il) (w, d) order in
    answered [] (fst st) (snd st).
Proof.
  intros Hreason. induction order as [|x order IH]; intros w d Hans; cbn [foldl];
    [done|].
  pose proof (assumeOne_answered demand ps il w d x order Hreason Hans) as H1.
  destruct (assumeOne demand ps il (w, d) x) as [w1 d1]. by apply IH.
Qed.

Lemma assumeAll_lengths demand ps il order :
  ∀ w d,
    let st := foldl (assumeOne demand ps il) (w, d) order in
    nodeInfos (fst st) = nodeInfos w
    ∧ length (ans (fst st)) = length (ans w)
    ∧ length (res (fst st)) = length (res w)
    ∧ (∀ j, j ∉ order → ans (fst st) !! j = ans w !! j ∧ res (fst st) !! j = res w !! j).
Proof.
  induction order as [|x order IH]; intros w d; cbn [foldl]; [done|].
  pose proof (assumeOne_step demand ps il w d x) as (Hn & Hla & Hlr & Hoth & _).
  destruct (assumeOne demand ps il (w, d) x) as [w1 d1]; simpl in *.
  destruct (IH w1 d1) as (IHn & IHla & IHlr & IHoth).
  split; [congruence|]. split; [congruence|]. split; [congruence|].
  intros j [Hne Hno]%not_elem_of_cons.
  destruct (IHoth j Hno) as [-> ->]. by apply Hoth.
Qed.

(** The answers of [Assume]: one per node name, and a reason with every
    false one. *)
Lemma Assume_answers sched nodes pod ps il d :
  assumeGivesReason →
  (∀ i, i < length nodes → i ∈ sched (length nodes)) →
  let out := fst (Assume sched nodes pod ps il d) in
  length (fst out) = length nodes
  ∧ length (snd out) = length nodes
  ∧ ∀ i, fst out !! i = Some false → ∃ err, snd out !! i = Some (Some err).
Proof.
  intros Hreason Hcover. unfold Assume.
  pose proof (resolveNodes_initial nodes d) as ((Hla & Hlr & Hln) & Hat & _).
  destruct (resolveNodes 0 nodes _) as [w1 d1]; simpl in *.
  assert (answered (sched (length nodes)) w1 d1) as Hans.
  { split; [congruence|]. split; [congruence|]. split.
    - intros i name Hi. pose proof (lookup_lt_Some _ _ _ Hi) as Hlt. rewrite Hln in Hlt.
      destruct (lookup_lt_is_Some_2 nodes i Hlt) as [nm Hnm].
      destruct (Hat i nm Hnm) as [([Hs Hk] & _)|(Hs & _)]; [|congruence].
      rewrite Hs in Hi. by injection Hi as <-.
    - intros i Hi. pose proof (lookup_lt_Some _ _ _ Hi) as Hlt. rewrite Hla in Hlt.
      destruct (lookup_lt_is_Some_2 nodes i Hlt) as [nm Hnm].
      destruct (Hat i nm Hnm) as [([Hs Hk] & _)|(_ & _ & Hr)]; [right|by left].
      split; [by apply Hcover|by eauto]. }
  pose proof (assumeAll_answered (NewDemandFromPod pod) ps il _ Hreason w1 d1 Hans)
    as (_ & _ & _ & Hfin).
  pose proof (assumeAll_lengths (NewDemandFromPod pod) ps il (sched (length nodes)) w1 d1)
    as (_ & Hla2 & Hlr2 & _).
  destruct (foldl _ _ _) as [w2 d2]; simpl in *.
  split; [congruence|]. split; [congruence|].
  intros i Hi. destruct (Hfin i Hi) as [?|[Hin _]]; [done|].
  by apply elem_of_nil in Hin.
Qed.

End AssumeLoops.

(** ** [Assume]: a node that is refused keeps what the engine keeps *)

Section AssumeKeeps.
Context {C : Type} {api : ClusterAPI C} {eng : NodeEngine}.
Context {A : Type} (obs : NodeInfo → A).
Implicit Types (d : DealerImpl C) (w : assumeWork).

(** [obs] is a part of a node that [cleanPlan] and a refusing
    [NodeInfo.Assume] leave as it is. *)
Hypothesis obs_clean : ∀ ni, obs (NodeInfo_cleanPlan ni) = obs ni.
Hypothesis obs_refused :
  ∀ demand cu mu ps il ni err ni',
    NodeInfo_Assume demand cu mu ps il ni = ((false, err), ni') → obs ni' = obs ni.





End AssumeKeeps.

(** ** The node engine of the specification: fit and rollback *)

Section SpecEngineProperties.
Import SpecEngine.

Lemma revert_commit r g : revert r (commit r g) = g.
Proof.
  destruct g as [ct mt cc mc]. unfold revert, commit; simpl. f_equal; lia.
Qed.

Lemma revertAt_commitAt i r gs : revertAt i r (commitAt i r gs) = gs.
Proof.
  unfold revertAt, commitAt. rewrite list_alter_alter_eq.
  apply list_alter_id. intros g. apply revert_commit.
Qed.

(** A fit that fails hands back the GPUs with every commit of [chosen]
    reverted. *)
Lemma fit_failed rater demand :
  ∀ chosen gs err gs',
    fit rater demand chosen gs = (inl err, gs') → gs' = rollback chosen gs.
Proof.
  induction demand as [|r demand IH]; intros chosen gs err gs'; simpl; [done|].
  destruct (choose rater r gs) as [i|].
  - intros Hfit. apply IH in Hfit. rewrite Hfit. unfold rollback. simpl.
    by rewrite revertAt_commitAt.
  - by intros [= _ <-].
Qed.

Lemma Assume_outcome demand ni :
  (∃ ni', Assume demand ni = ((true, None), ni'))
  ∨ (∃ err, Assume demand ni = ((false, Some err), ni)).
Proof.
  unfold Assume. destruct (fit _ _ _ _) as [[err|idx] gs] eqn:Hfit.
  - right. exists err. apply fit_failed in Hfit. simpl in Hfit. subst gs.
    by destruct ni.
  - left. eauto.
Qed.

Lemma engine_gives_reason : @assumeGivesReason engine.
Proof.
  intros demand cu mu ps il ni ni'. simpl.
  by destruct (Assume_outcome demand ni) as [[ni1 ->]|[err ->]].
Qed.

Lemma engine_allocate_clean : @allocateFailsClean engine.
Proof.
  intros plan ni err ni'. simpl. unfold Allocate.
  destruct (allocate _ _ _); [done|]. by intros [= _ <-].
Qed.

End SpecEngineProperties.


(** ** The filter handler *)

Section FilterHandler.
Context {C : Type} {api : ClusterAPI C} {eng : NodeEngine}.
Implicit Types (ns : list string) (can : list bool) (d : DealerImpl C).

Lemma passingNames_cons n ns b can :
  passingNames (n :: ns) (b :: can)
  = if b then n :: passingNames ns can else passingNames ns can.
Proof.
  unfold passingNames. simpl. rewrite filter_cons. simpl.
  by destruct b.
Qed.

Lemma passingNames_sublist ns : ∀ can, passingNames ns can `sublist_of` ns.
Proof.
  induction ns as [|n ns IH]; intros [|b can]; try done.
  - apply sublist_nil_l.
  - rewrite passingNames_cons. destruct b.
    + by apply sublist_skip.
    + by apply sublist_cons.
Qed.

Lemma elem_of_passingNames ns can n :
  n ∈ passingNames ns can ↔ ∃ i, ns !! i = Some n ∧ can !! i = Some true.
Proof.
  unfold passingNames. rewrite list_elem_of_fmap. split.
  - intros ([n' b] & -> & [Hb Hin]%list_elem_of_filter). simpl in *. subst b.
    apply elem_of_lookup_zip_with_1 in Hin as (i & x & y & [= -> ->] & ? & ?).
    eauto.
  - intros (i & Hn & Hc). exists (n, true). split; [done|].
    apply list_elem_of_filter. split; [done|].
    apply elem_of_lookup_zip_with. by exists i, n, true.
Qed.

(** The loop of the handler, from index [i] on.  An assignment to
    [canNotSchedule] replaces what the map held for the name: a name is
    left with the reason of its last refusal. *)
Lemma collect_spec ns res :
  ∀ can i cs cns,
    (∀ k b, can !! k = Some b →
       is_Some (ns !! (i + k))
       ∧ (b = false → ∃ err, res !! (i + k) = Some (Some err))) →
    ∃ cns',
      collect i can ns res cs cns
      = Some ((cs ++ passingNames (drop i ns) can)%list, cns')
      ∧ (∀ n msg, cns' !! n = Some msg →
           (cns !! n = Some msg
            ∧ ∀ k, can !! k = Some false → ns !! (i + k) ≠ Some n)
           ∨ ∃ k, can !! k = Some false ∧ ns !! (i + k) = Some n
                  ∧ res !! (i + k) = Some (Some msg)
                  ∧ ∀ k', k < k' → can !! k' = Some false →
                      ns !! (i + k') ≠ Some n)
      ∧ (∀ n, is_Some (cns !! n) → is_Some (cns' !! n))
      ∧ (∀ k n, can !! k = Some false → ns !! (i + k) = Some n →
           is_Some (cns' !! n)).
Proof.
  induction can as [|b can IH]; intros i cs cns Hok; cbn [collect].
  { exists cns. unfold passingNames. rewrite zip_with_nil_r, app_nil_r.
    split; [done|]. split; [|split; [done|]].
    - intros n msg Hn. left. split; [done|]. intros k Hk.
      by rewrite lookup_nil in Hk.
    - intros k n Hk. by rewrite lookup_nil in Hk. }
  destruct (Hok 0 b eq_refl) as [[name Hname] Hreason].
  rewrite Nat.add_0_r in Hname, Hreason. rewrite Hname.
  rewrite (drop_S _ _ _ Hname), passingNames_cons.
  assert (∀ k b', can !! k = Some b' →
            is_Some (ns !! (S i + k))
            ∧ (b' = false → ∃ err, res !! (S i + k) = Some (Some err))) as Hok'.
  { intros k b' Hk. replace (S i + k) with (i + S k) by lia. by apply Hok. }
  destruct b.
  - destruct (IH (S i) (cs ++ [name])%list cns Hok') as (cns' & Heq & Hfrom & Hold & Hkey).
    exists cns'. rewrite Heq, <- app_assoc. split; [done|].
    split; [|split; [done|]].
    + intros n msg Hn.
      destruct (Hfrom n msg Hn) as [[Hc Hno]|(k & Hk & Hnk & Hrk & Hlast)].
      * left. split; [done|]. intros [|k] Hk; [done|].
        replace (i + S k) with (S i + k) by lia. by apply Hno.
      * right. exists (S k). replace (i + S k) with (S i + k) by lia.
        split; [done|]. split; [done|]. split; [done|].
        intros [|k'] Hlt Hk'; [lia|].
        replace (i + S k') with (S i + k') by lia. apply Hlast; [lia|done].
    + intros [|k] n Hk Hn; [done|].
      apply (Hkey k n Hk). by replace (S i + k) with (i + S k) by lia.
  - destruct (Hreason eq_refl) as [err Herr]. rewrite Herr.
    destruct (IH (S i) cs (<[name := err]> cns) Hok') as (cns' & Heq & Hfrom & Hold & Hkey).
    exists cns'. split; [done|]. split; [|split].
    + intros n msg Hn.
      destruct (Hfrom n msg Hn) as [[Hins Hno]|(k & Hk & Hnk & Hrk & Hlast)].
      * destruct (decide (name = n)) as [->|Hne].
        -- rewrite lookup_insert_eq in Hins. injection Hins as ->.
           right. exists 0. rewrite Nat.add_0_r.
           split; [done|]. split; [done|]. split; [done|].
           intros [|k'] Hlt Hk'; [lia|].
           replace (i + S k') with (S i + k') by lia. by apply Hno.
        -- rewrite lookup_insert_ne in Hins by done. left. split; [done|].
           intros [|k] Hk.
           ++ rewrite Nat.add_0_r, Hname. congruence.
           ++ replace (i + S k) with (S i + k) by lia. by apply Hno.
      * right. exists (S k). replace (i + S k) with (S i + k) by lia.
        split; [done|]. split; [done|]. split; [done|].
        intros [|k'] Hlt Hk'; [lia|].
        replace (i + S k') with (S i + k') by lia. apply Hlast; [lia|done].
    + intros n Hn. apply Hold. destruct (decide (name = n)) as [->|Hne].
      * rewrite lookup_insert_eq. eauto.
      * by rewrite lookup_insert_ne.
    + intros [|k] n Hk Hn.
      * rewrite Nat.add_0_r in Hn. assert (n = name) as -> by congruence.
        apply Hold. rewrite lookup_insert_eq. eauto.
      * apply (Hkey k n Hk). by replace (S i + k) with (i + S k) by lia.
Qed.

(** C8, as amended.  The filter handler answers a request for the node
    names [ns] with: the names at the indices [Assume] accepted, in the
    order of [ns]; a map whose keys are the names [Assume] refused at some
    index, each with the reason of its last refusal; and an empty [Error].
    When no name is repeated in [ns] the two parts partition [ns]: every
    name is in exactly one of them, a passing name once, a refused name
    with the reason given for it.  A name that [ns] repeats may be in
    both, accepted at one index and refused at another. *)
Theorem Predicate_Handler_partitions sched ps il pod ns d :
  assumeGivesReason →
  fairSchedule sched (length ns) →
  let out := Assume sched ns pod ps il d in
  let can := fst (fst out) in
  let res := snd (fst out) in
  ∃ result,
    Predicate_Handler (NewNanoGPUPredicate sched ps il)
      {| extender.Pod := pod; extender.NodeNames := Some ns |} d
    = (Some result, snd out)
    ∧ extender.ResultNodeNames result = passingNames ns can
    ∧ extender.Error result = ""
    ∧ (∀ n, n ∈ extender.ResultNodeNames result
            ↔ ∃ i, ns !! i = Some n ∧ can !! i = Some true)
    ∧ (∀ n, is_Some (extender.FailedNodes result !! n)
            ↔ ∃ i, ns !! i = Some n ∧ can !! i = Some false)
    ∧ (∀ n msg, extender.FailedNodes result !! n = Some msg →
         ∃ i, ns !! i = Some n ∧ can !! i = Some false
              ∧ res !! i = Some (Some msg)
              ∧ ∀ j, i < j → ns !! j = Some n → can !! j = Some true)
    ∧ (NoDup ns →
       NoDup (extender.ResultNodeNames result)
       ∧ ∀ i n, ns !! i = Some n →
           (can !! i = Some true
            ∧ n ∈ extender.ResultNodeNames result
            ∧ extender.FailedNodes result !! n = None)
           ∨ (can !! i = Some false
              ∧ (n ∉ extender.ResultNodeNames result)
              ∧ ∃ msg, res !! i = Some (Some msg)
                       ∧ extender.FailedNodes result !! n = Some msg)).
Proof.
  intros Hreason Hfair out can res.
  assert (∀ i, i < length ns → i ∈ sched (length ns)) as Hcover.
  { intros i Hi. unfold fairSchedule in Hfair. rewrite Hfair.
    apply elem_of_seq. lia. }
  pose proof (Assume_answers sched ns pod ps il d Hreason Hcover) as (Hlc & Hlr & Hwhy).
  fold out in Hlc, Hlr, Hwhy. fold can in Hlc, Hwhy. fold res in Hlr, Hwhy.
  destruct (collect_spec ns res can 0 [] ∅) as (cns & Heq & Hfrom & _ & Hkey).
  { intros k b Hk. simpl. split.
    - apply lookup_lt_is_Some_2. apply lookup_lt_Some in Hk. lia.
    - intros ->. by apply Hwhy. }
  simpl in Heq, Hfrom, Hkey. rewrite drop_0 in Heq.
  assert (∀ n msg, cns !! n = Some msg →
            ∃ i, ns !! i = Some n ∧ can !! i = Some false
                 ∧ res !! i = Some (Some msg)
                 ∧ ∀ j, i < j → ns !! j = Some n → can !! j = Some true) as Hfrom'.
  { intros n msg Hn. destruct (Hfrom n msg Hn) as [[Hemp _]|(k & Hk & Hnk & Hrk & Hlast)].
    - by rewrite lookup_empty in Hemp.
    - exists k. split; [done|]. split; [done|]. split; [done|].
      intros j Hlt Hj. destruct (lookup_lt_is_Some_2 can j) as [[|] Hc]; [|done|].
      + apply lookup_lt_Some in Hj. lia.
      + by destruct (Hlast j Hlt Hc). }
  exists {| extender.ResultNodeNames := passingNames ns can;
            extender.FailedNodes := cns; extender.Error := "" |}.
  split.
  { unfold Predicate_Handler, NewNanoGPUPredicate. simpl.
    fold out. destruct out as [[can' res'] d'] eqn:Hout. simpl in *.
    subst can res. by rewrite Heq. }
  simpl. split; [done|]. split; [done|].
  split; [apply elem_of_passingNames|].
  split.
  { intros n. split.
    - intros [msg Hn]. destruct (Hfrom' n msg Hn) as (i & ? & ? & _). eauto.
    - intros (i & Hn & Hc). by apply (Hkey i n). }
  split; [done|].
  intros Hnd. split.
  { eapply sublist_NoDup; [exact Hnd|apply passingNames_sublist]. }
  intros i n Hn.
  assert (∀ j, ns !! j = Some n → j = i) as Honly.
  { intros j Hj. by apply (NoDup_lookup ns j i n). }
  destruct (lookup_lt_is_Some_2 can i) as [[|] Hc].
  { apply lookup_lt_Some in Hn. lia. }
  - left. split; [done|]. split.
    + apply elem_of_passingNames. eauto.
    + destruct (cns !! n) as [msg|] eqn:Hm; [|done].
      destruct (Hfrom' n msg Hm) as (j & Hj & Hcj & _).
      apply Honly in Hj as ->. congruence.
  - right. split; [done|]. split.
    + intros (j & Hj & Hcj)%elem_of_passingNames.
      apply Honly in Hj as ->. congruence.
    + destruct (Hkey i n Hc Hn) as [msg Hm]. exists msg. split; [|done].
      destruct (Hfrom' n msg Hm) as (j & Hj & _ & Hr & _).
      by apply Honly in Hj as ->.
Qed.

End FilterHandler.

(** * The properties on the scripted cluster *)

Module ScriptedRuns.
Import Mock Examples.

#[local] Existing Instance Mock.api.
#[local] Existing Instance SpecEngine.engine.

Lemma fifo_fair n : fairSchedule fifo n.
Proof. by unfold fairSchedule, fifo. Qed.

(** The filter step for [pod1] put 30 core units and 4096 MiB on card 0. *)
Example assumed_committed :
  committed "n1" (assumed []) = Some [(30, 4096); (0, 0)]%Z.
Proof. vm_compute. reflexivity. Qed.

(** Scenario S1: [pod1] is bound to [n1]; card 0 holds its request, the
    pod is recorded with its plan and the Binding names [n1]. *)
Example single_pod_bound :
  let out := Bind "n1" pod1 policy false (assumed []) in
  fst out = None
  ∧ committed "n1" (snd out) = Some [(30, 4096); (0, 0)]%Z
  ∧ KnownPod pod1 (snd out) = true
  ∧ (v1.Annotations <$> PodMaps (snd out) !! "u1")
    = Some {[ SpecEngine.AnnotationGPUIndexes := "0" ]}
  ∧ (v1.TargetName <$> bindings (Client (snd out))) = ["n1"].
Proof. repeat split; vm_compute; reflexivity. Qed.

(** Scenario S2: the two containers of [pod2] go to cards 0 and 1. *)
Example two_containers_two_cards :
  let out := Assume fifo ["n1"] pod2 policy false (dealer (cluster [pod2] [] [])) in
  fst out = ([true], [None])
  ∧ committed "n1" (snd out) = Some [(60, 8192); (60, 8192)]%Z
  ∧ (SpecEngine.PlanGPUIndexes <$>
       (NodeMaps (snd out) !! "n1" ≫= SpecEngine.TentativePlan))
    = Some [0; 1]%nat.
Proof. repeat split; vm_compute; reflexivity. Qed.

(** Scenario S5: releasing [bound1] gives its units back and moves its UID
    to [ReleasedPodMap]; forgetting it clears that too. *)
Example release_round_trip :
  let out := Release bound1 started in
  committed "n1" started = Some [(30, 4096); (0, 0)]%Z
  ∧ fst out = None
  ∧ committed "n1" (snd out) = Some [(0, 0); (0, 0)]%Z
  ∧ KnownPod bound1 (snd out) = false
  ∧ PodReleased bound1 (snd out) = true
  ∧ PodReleased bound1 (snd (Forget bound1 (snd out))) = false.
Proof. repeat split; vm_compute; reflexivity. Qed.

(** C1 on the scripted cluster: the first update fails with an error of
    the API server, and [Bind] returns nil. *)
Lemma Bind_drops_update_error_witness :
  ∃ d2 c1,
    Bind "n1" pod1 policy false (assumed [Some "etcdserver: request timed out"])
    = (None, set_Client c1 d2).
Proof.
  eexists _, _. eapply Bind_drops_update_error.
  - do 5 eexists. split; [reflexivity|].
    split; [reflexivity|]. split; [reflexivity|]. split; reflexivity.
  - reflexivity.
  - discriminate.
Defined.

(** The same run, in full: nil is returned, no Binding was created and
    [PodMaps] is empty. *)
Example dropped_error_run :
  let out := Bind "n1" pod1 policy false
               (assumed [Some "etcdserver: request timed out"]) in
  fst out = None
  ∧ bindings (Client (snd out)) = []
  ∧ PodMaps (snd out) = ∅.
Proof. vm_compute. done. Qed.


Example refused_pod_run :
  let out := Assume fifo ["n1"] pod3 policy false (assumed []) in
  fst out = ([false], [Some "gpu core insufficient"])
  ∧ committed "n1" (snd out) = Some [(30, 4096); (0, 0)]%Z.
Proof. vm_compute. done. Qed.

(** C3 as stated fails: the dealer starts with [bound1] running, releases
    it, and is asked to allocate it once more; its UID is then in both
    maps. *)
Lemma PodMaps_ReleasedPodMap_counterexample :
  let d := run (OpAllocate bound1) (run (OpRelease bound1) started) in
  reachable d
  ∧ "u1" ∈ dom (PodMaps d)
  ∧ "u1" ∈ ReleasedPodMap d.
Proof.
  split; [|split].
  - apply reach_op, reach_op.
    by apply (reach_new (eng := SpecEngine.engine) (cluster [bound1] [] [])
                SpecEngine.BinPack).
  - apply elem_of_dom. vm_compute. eauto.
  - apply (bool_decide_unpack _). vm_compute. exact I.
Qed.

(** C3 as amended, on a run that releases and then forgets [bound1]. *)
Lemma PodMaps_ReleasedPodMap_disjoint_witness :
  let d := run (OpForget bound1) (run (OpRelease bound1) started) in
  dom (PodMaps d) ## ReleasedPodMap d.
Proof.
  apply PodMaps_ReleasedPodMap_disjoint.
  apply guarded_op; [apply guarded_op|].
  - by apply (guarded_new (eng := SpecEngine.engine) (cluster [bound1] [] [])
                SpecEngine.BinPack).
  - intros u Hu _. exfalso. revert Hu. apply not_elem_of_empty.
  - apply Forget_admits.
Defined.

(** C4 as stated fails: the UID of [stray] is not in [PodMaps], and yet
    [Release] returns an error, for its node does not resolve. *)
Lemma Release_absent_counterexample :
  let d := dealer (cluster [] [] []) in
  PodMaps d !! v1.UID stray = None
  ∧ fst (Release stray d) = Some "node n9 not found".
Proof. vm_compute. done. Qed.

(** It fails as well when the node resolves only now: the seeding puts
    [bound1] into [PodMaps] and [Release] goes on to release it. *)
Example release_seeds_then_releases :
  let d := dealer (cluster [bound1] [] []) in
  PodMaps d !! v1.UID bound1 = None
  ∧ fst (Release bound1 d) = None
  ∧ committed "n1" (snd (Release bound1 d)) = Some [(0, 0); (0, 0)]%Z
  ∧ PodReleased bound1 (snd (Release bound1 d)) = true.
Proof. vm_compute. done. Qed.

(** C4 as amended, on the two cases: the node is stored, the node does
    not resolve. *)
Lemma Release_absent_uid_witness :
  Release unseen started = (None, started) ∧
  Release stray (dealer (cluster [] [] []))
  = (Some "node n9 not found", dealer (cluster [] [] [])).
Proof.
  split.
  - eapply (proj1 (Release_absent_uid unseen started eq_refl)). reflexivity.
  - apply (proj2 (proj2 (Release_absent_uid stray (dealer (cluster [] [] [])) eq_refl))
             "node n9 not found" (dealer (cluster [] [] []))).
    reflexivity.
Defined.

(** C5 as stated fails: after [Bind] the UID of [pod1] is in [PodMaps];
    the pod object at hand has no node name yet, and [Allocate] returns
    an error. *)
Lemma Allocate_known_counterexample :
  let d := snd (Bind "n1" pod1 policy false (assumed [])) in
  PodMaps d !! v1.UID pod1 ≠ None
  ∧ fst (Allocate pod1 d) = Some "pod default/u1 nodename is empty".
Proof. vm_compute. done. Qed.

(** C5 as amended: [bound1] is known to the started dealer. *)
Lemma Allocate_idempotent_witness :
  Allocate bound1 started = (None, started)
  ∧ Allocate bound1 (snd (Allocate bound1 started)) = Allocate bound1 started.
Proof.
  split.
  - eapply (proj1 (Allocate_idempotent bound1 started)); [discriminate|reflexivity..].
  - apply (proj2 (proj2 (Allocate_idempotent bound1 started))).
    apply engine_allocate_clean.
Defined.

(** C7 on the scripted cluster: [n9] is not a node of the cluster. *)
Lemma Score_length_and_ScoreMin_witness :
  let scores := fst (Score ["n1"; "n9"] pod1 policy false (dealer (cluster [pod1] [] []))) in
  length scores = 2 ∧ scores !! 1 = Some 0%Z.
Proof.
  pose proof (Score_length_and_ScoreMin ["n1"; "n9"] pod1 policy false
                (dealer (cluster [pod1] [] []))) as [Hlen Hmin].
  split; [exact Hlen|].
  apply (Hmin 1 "n9" eq_refl). exists "node n9 not found". reflexivity.
Defined.

(** C8 as stated fails: the request names [n1] twice; [pod2] takes both
    cards of [n1] at the first index and finds no room at the second, so
    [n1] is among the passing names and a key of [FailedNodes] as well. *)
Lemma Predicate_Handler_counterexample :
  ∃ result,
    fst (Predicate_Handler (NewNanoGPUPredicate fifo policy false)
           {| extender.Pod := pod2; extender.NodeNames := Some ["n1"; "n1"] |}
           (dealer (cluster [pod2] [] [])))
    = Some result
    ∧ "n1" ∈ extender.ResultNodeNames result
    ∧ extender.FailedNodes result !! "n1" = Some "gpu core insufficient".
Proof.
  eexists. split; [vm_compute; reflexivity|].
  split; [apply list_elem_of_here|reflexivity].
Qed.

(** The same request when the workers take the second index first: the
    result is the same. *)
Example repeated_name_either_order :
  let result sched :=
    fst (Predicate_Handler (NewNanoGPUPredicate sched policy false)
           {| extender.Pod := pod2; extender.NodeNames := Some ["n1"; "n1"] |}
           (dealer (cluster [pod2] [] []))) in
  result (λ k, reverse (seq 0 k)) = result fifo
  ∧ (extender.ResultNodeNames <$> result fifo) = Some ["n1"].
Proof. split; vm_compute; reflexivity. Qed.

(** C8 as amended, on the scripted cluster: [n1] passes, [n9] fails with
    its reason. *)
Lemma Predicate_Handler_partitions_witness :
  ∃ result,
    fst (Predicate_Handler (NewNanoGPUPredicate fifo policy false)
           {| extender.Pod := pod1; extender.NodeNames := Some ["n1"; "n9"] |}
           (dealer (cluster [pod1] [] [])))
    = Some result
    ∧ extender.ResultNodeNames result = ["n1"]
    ∧ extender.FailedNodes result !! "n9"
      = Some "nano gpu scheduler get node failed: node n9 not found"
    ∧ extender.Error result = "".
Proof.
  destruct (Predicate_Handler_partitions fifo policy false pod1 ["n1"; "n9"]
              (dealer (cluster [pod1] [] [])) engine_gives_reason (fifo_fair 2))
    as (result & Heq & Hnames & Herr & _ & _ & _ & Hpart).
  exists result. rewrite Heq. split; [reflexivity|].
  split; [rewrite Hnames; vm_compute; reflexivity|].
  split; [|exact Herr].
  destruct Hpart as [_ Hpart].
  { apply (bool_decide_unpack _). vm_compute. exact I. }
  destruct (Hpart 1 "n9" eq_refl) as [(Hc & _)|(_ & _ & msg & Hr & Hm)].
  - vm_compute in Hc. discriminate.
  - vm_compute in Hr. injection Hr as <-. exact Hm.
Defined.

(** C9 on the scripted cluster (scenario S6): the API answers the first
    update with the conflict message and accepts the second. *)
Lemma Bind_retries_update_once_witness :
  ∃ d', Bind "n1" pod1 policy false (assumed [Some OptimisticLockErrorMsg])
        = (None, d').
Proof.
  eexists.
  edestruct (Bind_retries_update_once "n1" pod1 policy false
               (assumed [Some OptimisticLockErrorMsg])) as (_ & _ & Hretry).
  - do 5 eexists. split; [reflexivity|].
    split; [reflexivity|]. split; [reflexivity|]. split; reflexivity.
  - reflexivity.
  - edestruct Hretry as [Hbound _]; [reflexivity|reflexivity|].
    eapply Hbound. reflexivity.
Defined.

(** The same run, and the run where the second update meets a conflict
    too: the plan is in the pod's annotation and the pod is bound after
    two updates; the second conflict is returned after two updates. *)
Example conflict_runs :
  let ok := Bind "n1" pod1 policy false (assumed [Some OptimisticLockErrorMsg]) in
  let ko := Bind "n1" pod1 policy false
              (assumed [Some OptimisticLockErrorMsg; Some OptimisticLockErrorMsg]) in
  fst ok = None
  ∧ updateCalls (Client (snd ok)) = 2
  ∧ (v1.Annotations <$> PodMaps (snd ok) !! "u1")
    = Some {[ SpecEngine.AnnotationGPUIndexes := "0" ]}
  ∧ length (bindings (Client (snd ok))) = 1
  ∧ fst ko = Some OptimisticLockErrorMsg
  ∧ updateCalls (Client (snd ko)) = 2
  ∧ bindings (Client (snd ko)) = [].
Proof. repeat split; vm_compute; reflexivity. Qed.

(** C10 on the scripted cluster: [pod1] has no node name. *)
Lemma Allocate_empty_nodename_witness :
  Allocate pod1 started = (Some "pod default/u1 nodename is empty", started).
Proof. apply (Allocate_empty_nodename pod1 started). reflexivity. Defined.

End ScriptedRuns.

(** * Further properties of the dealer *)

(** ** Lazy seeding *)

Section Seeding.
Context {C : Type} {api : ClusterAPI C} {eng : NodeEngine}.
Implicit Types (d : DealerImpl C) (name : string).

(** A node is seeded once: after a resolution that succeeded, resolving
    the same name again returns the same node and changes nothing. *)
Theorem getNodeInfo_seeds_once name d ni d1 :
  getNodeInfo name d = (inr ni, d1) →
  getNodeInfo name d1 = (inr ni, d1).
Proof.
  intros (Hk & _)%getNodeInfo_resolved. by apply getNodeInfo_known.
Qed.

Lemma replayPod_records shared pods :
  ∀ ni (pm : gmap string v1.Pod),
    let st := foldl (replayPod shared) (ni, pm) pods in
    (∀ u p, snd st !! u = Some p →
       pm !! u = Some p
       ∨ (p = shared
          ∧ ∃ q plan, q ∈ pods ∧ v1.UID q = u ∧ NewPlanFromPod q = inr plan))
    ∧ (∀ u, is_Some (pm !! u) → is_Some (snd st !! u)).
Proof.
  induction pods as [|pod pods IH]; intros ni pm; cbn [foldl].
  { split; [by left|done]. }
  assert (∃ ni1 pm1, replayPod shared (ni, pm) pod = (ni1, pm1)
          ∧ (∀ u p, pm1 !! u = Some p →
               pm !! u = Some p
               ∨ (p = shared ∧ v1.UID pod = u
                  ∧ ∃ plan, NewPlanFromPod pod = inr plan))
          ∧ (∀ u, is_Some (pm !! u) → is_Some (pm1 !! u)))
    as (ni1 & pm1 & -> & Hstep & Hkeys).
  { unfold replayPod. simpl. destruct (NewPlanFromPod pod) as [err|plan] eqn:Hp.
    { exists ni, pm. split; [done|]. split; [by left|done]. }
    destruct (NodeInfo_Allocate plan ni) as [[err|] ni1].
    { exists ni1, pm. split; [done|]. split; [by left|done]. }
    exists ni1, (<[v1.UID pod := shared]> pm). split; [done|]. split.
    - intros u p Hu. destruct (decide (v1.UID pod = u)) as [<-|Hne].
      + rewrite lookup_insert_eq in Hu. injection Hu as <-. right. eauto.
      + rewrite lookup_insert_ne in Hu by done. by left.
    - intros u Hu. destruct (decide (v1.UID pod = u)) as [<-|Hne].
      + rewrite lookup_insert_eq. eauto.
      + by rewrite lookup_insert_ne. }
  destruct (IH ni1 pm1) as [IHrec IHkeys]. split.
  - intros u p Hu. destruct (IHrec u p Hu) as [Hold|(-> & q & plan & Hin & Huid & Hplan)].
    + destruct (Hstep u p Hold) as [?|(-> & ? & plan & ?)]; [by left|right].
      split; [done|]. exists pod, plan. split; [apply list_elem_of_here|done].
    + right. split; [done|]. exists q, plan.
      split; [by apply list_elem_of_further|done].
  - intros u Hu. by apply IHkeys, Hkeys.
Qed.

(** The first resolution of a node reads the node from the lister and the
    pods of the node from the cluster.  Every UID it puts into [PodMaps] is
    the UID of one of these pods, one with a plan that parses; the pod
    found under it is not that pod but the last pod of the list, whatever
    its UID and its plan: the entries written by one seeding share the
    loop's variable.  No UID leaves [PodMaps]. *)
Theorem getNodeInfo_records_listed_pods name d ni d1 :
  NodeMaps d !! name = None →
  getNodeInfo name d = (inr ni, d1) →
  ∃ node pods,
    NodeLister_Get (Client d) name = inr node
    ∧ Pods_List (Client d) (Some name) = inr pods
    ∧ (∀ u p, PodMaps d1 !! u = Some p →
         PodMaps d !! u = Some p
         ∨ (last pods = Some p
            ∧ ∃ q plan, q ∈ pods ∧ v1.UID q = u ∧ NewPlanFromPod q = inr plan))
    ∧ (∀ u, is_Some (PodMaps d !! u) → is_Some (PodMaps d1 !! u)).
Proof.
  intros Hn. unfold getNodeInfo. rewrite Hn.
  destruct (NodeLister_Get _ _) as [err|node]; [done|].
  destruct (Pods_List _ _) as [err|pods]; [done|].
  unfold replayPods. destruct (last pods) as [shared|] eqn:Hlast.
  - pose proof (replayPod_records shared pods (NewNodeInfo name node (DealerRater d))
                  (PodMaps d)) as [Hrec Hkeys].
    destruct (foldl _ _ _) as [ni1 pm]. intros [= <- <-]. simpl in *.
    exists node, pods. split; [done|]. split; [done|]. split; [|done].
    intros u p Hu. destruct (Hrec u p Hu) as [?|[-> ?]]; [by left|by right].
  - intros [= <- <-]. simpl. exists node, pods. eauto.
Qed.

End Seeding.

(** ** What no operation does *)

Section Never.
Context {C : Type} {api : ClusterAPI C} {eng : NodeEngine}.
Implicit Types (d : DealerImpl C) (pod : v1.Pod).

Lemma store_node_keys name ni d n :
  is_Some (NodeMaps d !! n) → is_Some (NodeMaps (store_node name ni d) !! n).
Proof.
  intros Hn. simpl. destruct (decide (name = n)) as [->|Hne].
  - rewrite lookup_insert_eq. eauto.
  - by rewrite lookup_insert_ne.
Qed.

Lemma getNodeInfo_keys name d n :
  is_Some (NodeMaps d !! n) → is_Some (NodeMaps (snd (getNodeInfo name d)) !! n).
Proof. intros [ni Hn]. rewrite (getNodeInfo_keeps name d n ni Hn). eauto. Qed.

Lemma assumeAll_keys demand ps il order :
  ∀ w d n,
    is_Some (NodeMaps d !! n) →
    is_Some (NodeMaps (snd (foldl (assumeOne demand ps il) (w, d) order)) !! n).
Proof.
  induction order as [|x order IH]; intros w d n Hn; cbn [foldl]; [done|].
  pose proof (assumeOne_step demand ps il w d x) as (_ & _ & _ & _ & Hkeys).
  destruct (assumeOne demand ps il (w, d) x) as [w1 d1]. apply IH. by apply Hkeys.
Qed.

Lemma scoreNode_outside demand ps il i name scores d :
  let st := scoreNode demand ps il i name (scores, d) in
  sameOutside d (snd st)
  ∧ ∀ n, is_Some (NodeMaps d !! n) → is_Some (NodeMaps (snd st) !! n).
Proof.
  unfold scoreNode. pose proof (sameOutside_getNodeInfo name d) as Hs.
  pose proof (getNodeInfo_keys name d) as Hk.
  destruct (getNodeInfo name d) as [[err|ni] d1]; simpl in *; [done|].
  destruct (NodeInfo_Score _ _ _ _ _ _) as [s ni']. simpl. split.
  - eapply sameOutside_trans; [exact Hs|apply sameOutside_store].
  - intros n Hn. by apply store_node_keys, Hk.
Qed.

Lemma scoreNodes_outside demand ps il names :
  ∀ i scores d,
    let st := scoreNodes demand ps il i names (scores, d) in
    sameOutside d (snd st)
    ∧ ∀ n, is_Some (NodeMaps d !! n) → is_Some (NodeMaps (snd st) !! n).
Proof.
  induction names as [|name names IH]; intros i scores d; cbn [scoreNodes].
  { split; [apply sameOutside_refl|done]. }
  pose proof (scoreNode_outside demand ps il i name scores d) as [Hs Hk].
  destruct (scoreNode demand ps il i name (scores, d)) as [s1 d1]; simpl in *.
  destruct (IH (S i) s1 d1) as [Hs' Hk']. split.
  - by eapply sameOutside_trans.
  - intros n Hn. by apply Hk', Hk.
Qed.

Lemma updatePod_nodes node pod indexes d :
  NodeMaps (snd (updatePod node pod indexes d)) = NodeMaps d.
Proof.
  assert (∀ p q d0, NodeMaps (snd (bindPod node p q d0)) = NodeMaps d0) as Hb.
  { intros p q d0. unfold bindPod. by destruct (Pods_Bind _ _ _) as [c [err|]]. }
  unfold updatePod. destruct (Pods_Update _ _ _) as [c1 [err|p]].
  - case_decide; [|done]. destruct (Pods_Get _ _ _) as [e|pod']; [done|].
    destruct (Pods_Update _ _ _) as [c2 [e|p]]; [done|]. by rewrite Hb.
  - by rewrite Hb.
Qed.

(** No operation removes a node: a name in [NodeMaps] before an operation
    is in [NodeMaps] after it. *)
Theorem nodes_are_never_removed op d n :
  is_Some (NodeMaps d !! n) → is_Some (NodeMaps (run op d) !! n).
Proof.
  intros Hn.
  destruct op as [sched nodes pod ps il|nodes pod ps il|node pod ps il|pod|pod|pod];
    cbn [run].
  - unfold Assume. destruct Hn as [ni Hn].
    pose proof (resolveNodes_keeps nodes 0 (newAssumeWork (length nodes)) d n ni Hn) as H1.
    destruct (resolveNodes 0 nodes _) as [w1 d1]; simpl in H1.
    pose proof (assumeAll_keys (NewDemandFromPod pod) ps il (sched (length nodes))
                  w1 d1 n ltac:(eauto)) as H2.
    by destruct (foldl _ _ _) as [w2 d2].
  - unfold Score. by apply scoreNodes_outside.
  - unfold Bind. pose proof (getNodeInfo_keys node d n Hn) as Hk.
    destruct (getNodeInfo node d) as [[err|ni] d1]; simpl in *; [done|].
    destruct (NodeLister_Get _ _); [done|].
    destruct (NodeInfo_Bind _ _ _ _ _ _) as [[err|plan] ni']; simpl.
    + by apply (store_node_keys node ni' d1).
    + rewrite updatePod_nodes. by apply (store_node_keys node ni' d1).
  - unfold Allocate. case_decide; [done|].
    pose proof (getNodeInfo_keys (v1.NodeName pod) d n Hn) as Hk.
    destruct (getNodeInfo _ d) as [[err|ni] d1]; simpl in *; [done|].
    destruct (PodMaps d1 !! _); [done|].
    destruct (NewPlanFromPod pod); [done|].
    destruct (NodeInfo_Allocate _ _) as [[err|] ni']; simpl;
      by apply (store_node_keys (v1.NodeName pod) ni' d1).
  - unfold Release.
    pose proof (getNodeInfo_keys (v1.NodeName pod) d n Hn) as Hk.
    destruct (getNodeInfo _ d) as [[err|ni] d1]; simpl in *; [done|].
    destruct (PodMaps d1 !! _); [|done].
    destruct (NewPlanFromPod pod); [done|].
    destruct (NodeInfo_Release _ _) as [[err|] ni']; simpl;
      by apply (store_node_keys (v1.NodeName pod) ni' d1).
  - done.
Qed.

(** Only [Bind] writes to the cluster: every other operation leaves the
    cluster as it found it. *)
Theorem only_Bind_writes_the_cluster op d :
  (∀ node pod ps il, op ≠ OpBind node pod ps il) →
  Client (run op d) = Client d.
Proof.
  intros Hop.
  destruct op as [sched nodes pod ps il|nodes pod ps il|node pod ps il|pod|pod|pod];
    cbn [run].
  - by pose proof (sameOutside_Assume sched nodes pod ps il d) as (-> & _).
  - unfold Score. by pose proof (scoreNodes_outside (NewDemandFromPod pod) ps il
                                   nodes 0 (replicate (length nodes) 0%Z) d)
      as [(-> & _) _].
  - by destruct (Hop node pod ps il).
  - unfold Allocate. case_decide; [done|].
    pose proof (sameOutside_getNodeInfo (v1.NodeName pod) d) as (Hc & _).
    destruct (getNodeInfo _ d) as [[err|ni] d1]; simpl in *; [done|].
    destruct (PodMaps d1 !! _); [done|].
    destruct (NewPlanFromPod pod); [done|].
    by destruct (NodeInfo_Allocate _ _) as [[err|] ni'].
  - unfold Release.
    pose proof (sameOutside_getNodeInfo (v1.NodeName pod) d) as (Hc & _).
    destruct (getNodeInfo _ d) as [[err|ni] d1]; simpl in *; [done|].
    destruct (PodMaps d1 !! _); [|done].
    destruct (NewPlanFromPod pod); [done|].
    by destruct (NodeInfo_Release _ _) as [[err|] ni'].
  - done.
Qed.

(** [ReleasedPodMap] is written by [Release] and [Forget] only: [Release]
    leaves it or adds the pod's UID, [Forget] removes the pod's UID, and
    [Assume], [Score], [Bind] and [Allocate] leave it as it is. *)
Theorem ReleasedPodMap_writers op d :
  match op with
  | OpRelease pod =>
      ReleasedPodMap (run op d) = ReleasedPodMap d
      ∨ ReleasedPodMap (run op d) = {[v1.UID pod]} ∪ ReleasedPodMap d
  | OpForget pod =>
      ReleasedPodMap (run op d) = ReleasedPodMap d ∖ {[v1.UID pod]}
  | _ => ReleasedPodMap (run op d) = ReleasedPodMap d
  end.
Proof.
  destruct op as [sched nodes pod ps il|nodes pod ps il|node pod ps il|pod|pod|pod];
    cbn [run].
  - by pose proof (sameOutside_Assume sched nodes pod ps il d) as (_&_&_&_&->).
  - unfold Score. apply scoreNodes_frame.
  - apply Bind_released.
  - apply Allocate_released.
  - unfold Release.
    pose proof (sameOutside_getNodeInfo (v1.NodeName pod) d) as (_&_&_&_&Hr).
    destruct (getNodeInfo _ d) as [[err|ni] d1]; simpl in Hr; rewrite <- Hr.
    { by left. }
    destruct (PodMaps d1 !! _); [|by left].
    destruct (NewPlanFromPod pod); [by left|].
    destruct (NodeInfo_Release _ _) as [[err|] ni']; [by left|by right].
  - done.
Qed.

End Never.

(** ** [Bind]: the first update succeeds, and what a failed [Bind] leaves *)

Section BindOutcomes.
Context {C : Type} {api : ClusterAPI C} {eng : NodeEngine}.
Implicit Types (d : DealerImpl C) (pod : v1.Pod).

(** When the first pod update succeeds, [Bind] creates the Binding of the
    pod to the node.  If that succeeds it returns nil and [PodMaps] holds,
    under the pod's UID, the dealer's own updated copy of the pod (not the
    object the update returned); if it fails the error is returned and
    [PodMaps] is not written. *)
Theorem Bind_after_first_update node pod ps il d d2 indexes c1 updated :
  reachesUpdate node pod ps il d d2 indexes →
  Pods_Update (Client d2)
    (v1.Namespace (GetUpdatedPodAnnotationSpec pod indexes))
    (GetUpdatedPodAnnotationSpec pod indexes) = (c1, inr updated) →
  let newPod := GetUpdatedPodAnnotationSpec pod indexes in
  (∀ c2, Pods_Bind c1 (v1.Namespace newPod) (bindingOf node newPod) = (c2, None) →
     Bind node pod ps il d
     = (None, set_PodMaps (<[v1.UID pod := newPod]> (PodMaps d2))
                (set_Client c2 (set_Client c1 d2))))
  ∧ (∀ c2 err, Pods_Bind c1 (v1.Namespace newPod) (bindingOf node newPod)
                 = (c2, Some err) →
     Bind node pod ps il d = (Some err, set_Client c2 (set_Client c1 d2))).
Proof.
  intros (ni & d1 & nodeObj & plan & ni' & Hg & Hn & Hb & -> & ->) Hu. simpl.
  unfold Bind. rewrite Hg, Hn, Hb. unfold updatePod. rewrite Hu.
  unfold bindPod, bindingOf. simpl. split.
  - by intros c2 ->.
  - by intros c2 err ->.
Qed.

Lemma updatePod_error_keeps node pod indexes d err d' :
  updatePod node pod indexes d = (Some err, d') → PodMaps d' = PodMaps d.
Proof.
  assert (∀ p q d0 e d1, bindPod node p q d0 = (Some e, d1) →
            PodMaps d1 = PodMaps d0) as Hb.
  { intros p q d0 e d1. unfold bindPod.
    destruct (Pods_Bind _ _ _) as [c [e'|]]; [|done]. by intros [= _ <-]. }
  unfold updatePod. destruct (Pods_Update _ _ _) as [c1 [e|p]].
  - case_decide; [|done]. destruct (Pods_Get _ _ _) as [e'|pod'].
    { by intros [= _ <-]. }
    destruct (Pods_Update _ _ _) as [c2 [e'|p]].
    { by intros [= _ <-]. }
    intros Hbind. by rewrite (Hb _ _ _ _ _ Hbind).
  - intros Hbind. by rewrite (Hb _ _ _ _ _ Hbind).
Qed.

(** A [Bind] that returns an error has recorded no pod: [PodMaps] is what
    the resolution of the node left. *)
Theorem Bind_error_records_no_pod node pod ps il d err d' :
  Bind node pod ps il d = (Some err, d') →
  PodMaps d' = PodMaps (snd (getNodeInfo node d)).
Proof.
  unfold Bind. destruct (getNodeInfo node d) as [[e|ni] d1]; simpl.
  { by intros [= _ <-]. }
  destruct (NodeLister_Get _ _) as [e|nodeObj].
  { by intros [= _ <-]. }
  destruct (NodeInfo_Bind _ _ _ _ _ _) as [[e|plan] ni'].
  { by intros [= _ <-]. }
  intros Hup. by rewrite (updatePod_error_keeps _ _ _ _ _ _ Hup).
Qed.

End BindOutcomes.

(** ** [Allocate], [Release], [Forget]: outcomes and compositions *)

Section LifecycleOutcomes.
Context {C : Type} {api : ClusterAPI C} {eng : NodeEngine}.
Implicit Types (d : DealerImpl C) (pod : v1.Pod).

(** [Allocate] of a pod that is not yet known, on a node that is stored:
    nil means that the plan of the pod parsed and the node took it, and the
    dealer differs by that node and by the pod now in [PodMaps]. *)
Theorem Allocate_records_new_pod pod d ni d' :
  NodeMaps d !! v1.NodeName pod = Some ni →
  PodMaps d !! v1.UID pod = None →
  Allocate pod d = (None, d') →
  ∃ plan ni',
    NewPlanFromPod pod = inr plan
    ∧ NodeInfo_Allocate plan ni = (None, ni')
    ∧ d' = set_PodMaps (<[v1.UID pod := pod]> (PodMaps d))
             (store_node (v1.NodeName pod) ni' d)
    ∧ KnownPod pod d' = true.
Proof.
  intros Hk Hu. unfold Allocate. case_decide; [done|].
  rewrite (getNodeInfo_known _ _ _ Hk), Hu.
  destruct (NewPlanFromPod pod) as [e|plan]; [done|].
  destruct (NodeInfo_Allocate plan ni) as [[e|] ni'] eqn:Ha; [done|].
  intros [= <-]. exists plan, ni'. repeat split; try done.
  unfold KnownPod. apply bool_decide_eq_true. simpl.
  rewrite lookup_insert_eq. eauto.
Qed.

(** An [Allocate] that returns an error has recorded no pod. *)
Theorem Allocate_error_records_no_pod pod d err d' :
  v1.NodeName pod ≠ "" →
  Allocate pod d = (Some err, d') →
  PodMaps d' = PodMaps (snd (getNodeInfo (v1.NodeName pod) d)).
Proof.
  intros Hn. unfold Allocate. rewrite decide_False by done.
  destruct (getNodeInfo _ d) as [[e|ni] d1]; simpl.
  { by intros [= _ <-]. }
  destruct (PodMaps d1 !! _); [done|].
  destruct (NewPlanFromPod pod) as [e|plan].
  { by intros [= _ <-]. }
  destruct (NodeInfo_Allocate plan ni) as [[e|] ni']; [|done].
  by intros [= _ <-].
Qed.

(** [Release] of a known pod on a stored node: nil means that the UID has
    moved from [PodMaps] to [ReleasedPodMap], and no other UID has moved. *)
Theorem Release_moves_known_pod pod d ni q d' :
  NodeMaps d !! v1.NodeName pod = Some ni →
  PodMaps d !! v1.UID pod = Some q →
  Release pod d = (None, d') →
  PodMaps d' = delete (v1.UID pod) (PodMaps d)
  ∧ ReleasedPodMap d' = {[v1.UID pod]} ∪ ReleasedPodMap d
  ∧ KnownPod pod d' = false
  ∧ PodReleased pod d' = true.
Proof.
  intros Hk Hu. unfold Release. rewrite (getNodeInfo_known _ _ _ Hk), Hu.
  destruct (NewPlanFromPod pod) as [e|plan]; [done|].
  destruct (NodeInfo_Release plan ni) as [[e|] ni']; [done|].
  intros [= <-]. simpl. split; [done|]. split; [done|]. split.
  - unfold KnownPod. apply bool_decide_eq_false. simpl.
    rewrite lookup_delete_eq. by intros [? ?].
  - unfold PodReleased. apply bool_decide_eq_true. simpl.
    apply elem_of_union. left. by apply elem_of_singleton.
Qed.

(** A [Release] that returns an error has moved no UID: both maps are what
    the resolution of the node left. *)
Theorem Release_error_moves_nothing pod d err d' :
  Release pod d = (Some err, d') →
  PodMaps d' = PodMaps (snd (getNodeInfo (v1.NodeName pod) d))
  ∧ ReleasedPodMap d' = ReleasedPodMap d.
Proof.
  unfold Release.
  pose proof (sameOutside_getNodeInfo (v1.NodeName pod) d) as (_&_&_&_&Hr).
  destruct (getNodeInfo _ d) as [[e|ni] d1]; simpl in *.
  { by intros [= _ <-]. }
  destruct (PodMaps d1 !! _); [|done].
  destruct (NewPlanFromPod pod) as [e|plan].
  { by intros [= _ <-]. }
  destruct (NodeInfo_Release plan ni) as [[e|] ni']; [|done].
  by intros [= _ <-].
Qed.

(** After a [Release] that returned nil, releasing the same pod again
    returns nil and changes nothing. *)
Theorem Release_twice pod d d1 :
  Release pod d = (None, d1) → Release pod d1 = (None, d1).
Proof.
  unfold Release at 1.
  destruct (getNodeInfo _ d) as [[e|ni] d0] eqn:Hg; [done|].
  apply getNodeInfo_resolved in Hg as (Hk & _).
  destruct (PodMaps d0 !! v1.UID pod) as [q|] eqn:Hu.
  - destruct (NewPlanFromPod pod) as [e|plan]; [done|].
    destruct (NodeInfo_Release plan ni) as [[e|] ni']; [done|].
    intros [= <-]. unfold Release.
    erewrite getNodeInfo_known; [|simpl; apply lookup_insert_eq].
    simpl. by rewrite lookup_delete_eq.
  - intros [= <-]. unfold Release. by rewrite (getNodeInfo_known _ _ _ Hk), Hu.
Qed.

(** [Allocate] then [Release] of a pod that was not known, on a stored
    node whose [NodeInfo.Release] undoes its [NodeInfo.Allocate]: both
    return nil and the dealer is back where it was, except that the pod's
    UID is now in [ReleasedPodMap]. *)
Theorem Allocate_then_Release pod d ni plan ni1 :
  v1.NodeName pod ≠ "" →
  NodeMaps d !! v1.NodeName pod = Some ni →
  PodMaps d !! v1.UID pod = None →
  NewPlanFromPod pod = inr plan →
  NodeInfo_Allocate plan ni = (None, ni1) →
  NodeInfo_Release plan ni1 = (None, ni) →
  fst (Allocate pod d) = None
  ∧ Release pod (snd (Allocate pod d))
    = (None, set_ReleasedPodMap ({[v1.UID pod]} ∪ ReleasedPodMap d) d).
Proof.
  intros Hn Hk Hu Hp Ha Hr. unfold Allocate. rewrite decide_False by done.
  rewrite (getNodeInfo_known _ _ _ Hk), Hu, Hp, Ha. simpl. split; [done|].
  unfold Release. erewrite getNodeInfo_known; [|simpl; apply lookup_insert_eq].
  simpl. rewrite lookup_insert_eq, Hp, Hr. f_equal.
  unfold set_ReleasedPodMap, set_PodMaps, store_node, set_NodeMaps. simpl.
  rewrite delete_insert_eq, (delete_id _ _ Hu).
  rewrite insert_insert_eq, (insert_id _ _ _ Hk). done.
Qed.

(** [Forget] of a pod the dealer holds in neither map changes nothing. *)
Theorem Forget_unknown pod d :
  PodMaps d !! v1.UID pod = None →
  v1.UID pod ∉ ReleasedPodMap d →
  Forget pod d = (None, d).
Proof.
  intros Hu Hr. unfold Forget. f_equal.
  unfold set_PodMaps, set_ReleasedPodMap. simpl.
  rewrite (delete_id _ _ Hu).
  assert (ReleasedPodMap d ∖ {[v1.UID pod]} = ReleasedPodMap d) as ->.
  { apply set_eq. intros u. rewrite elem_of_difference, elem_of_singleton.
    split; [tauto|]. intros Hin. split; [done|]. by intros ->. }
  by destruct d.
Qed.

End LifecycleOutcomes.

(** ** [Assume]: the answer for each node *)

Section AssumeAnswers.
Context {C : Type} {api : ClusterAPI C} {eng : NodeEngine}.
Implicit Types (d : DealerImpl C) (w : assumeWork).

(** A name that fails to resolve fails with the same error after another
    name has been resolved. *)
Lemma getNodeInfo_failed_other name other d err :
  fst (getNodeInfo name d) = inl err →
  fst (getNodeInfo name (snd (getNodeInfo other d))) = inl err.
Proof.
  intros Hf. assert (NodeMaps d !! name = None) as Hn.
  { apply unresolvable_unknown. by exists err. }
  destruct (getNodeInfo other d) as [[e|ni1] d1] eqn:Hg; simpl.
  - by apply getNodeInfo_failed in Hg as [-> _].
  - assert (name ≠ other) as Hne.
    { intros ->. by rewrite Hg in Hf. }
    apply getNodeInfo_resolved in Hg as (_ & Ho & Hc & Hr & _).
    rewrite <- Hf. apply getNodeInfo_same_node; try done. by rewrite Ho.
Qed.

Lemma resolveNode_slot n i name w d :
  sized n w → i < n →
  let st := resolveNode i name (w, d) in
  (∀ err, fst (getNodeInfo name d) = inl err →
     nodeInfos (fst st) !! i = Some None
     ∧ ans (fst st) !! i = Some false
     ∧ res (fst st) !! i
       = Some (Some ("nano gpu scheduler get node failed: " ++ err)))
  ∧ (∀ ni, fst (getNodeInfo name d) = inr ni →
       nodeInfos (fst st) !! i = Some (Some name)
       ∧ ans (fst st) !! i = ans w !! i
       ∧ res (fst st) !! i = res w !! i).
Proof.
  intros (Ha & Hr & Hn) Hlt. unfold resolveNode.
  destruct (getNodeInfo name d) as [[e|ni1] d1]; cbn [fst snd ans res nodeInfos].
  - split; [|done]. intros err [= <-].
    split; [apply list_lookup_insert_eq; lia|].
    split; [apply list_lookup_insert_eq; lia|].
    apply list_lookup_insert_eq. change (i < length (res w)). lia.
  - split; [done|]. intros ni [= <-].
    split; [apply list_lookup_insert_eq; lia|done].
Qed.

Lemma resolveNodes_slot n names :
  ∀ i w d k name,
    sized n w → names !! k = Some name → i + k < n →
    let st := resolveNodes i names (w, d) in
    (∀ err, fst (getNodeInfo name d) = inl err →
       nodeInfos (fst st) !! (i + k) = Some None
       ∧ ans (fst st) !! (i + k) = Some false
       ∧ res (fst st) !! (i + k)
         = Some (Some ("nano gpu scheduler get node failed: " ++ err)))
    ∧ (∀ ni, fst (getNodeInfo name d) = inr ni →
         nodeInfos (fst st) !! (i + k) = Some (Some name)
         ∧ ans (fst st) !! (i + k) = ans w !! (i + k)
         ∧ res (fst st) !! (i + k) = res w !! (i + k)).
Proof.
  induction names as [|nm names IH]; intros i w d k name Hsz Hk Hlt;
    [by rewrite lookup_nil in Hk|].
  cbn [resolveNodes].
  pose proof (resolveNode_step n i nm w d Hsz) as (Hsz1 & Hoth & _).
  pose proof (resolveNode_dealer i nm w d) as Hsnd.
  destruct k as [|k]; simpl in Hk.
  - injection Hk as ->. rewrite Nat.add_0_r in *.
    pose proof (resolveNode_slot n i name w d Hsz Hlt) as [Hf Hr].
    destruct (resolveNode i name (w, d)) as [w1 d1]. simpl in Hsz1, Hf, Hr.
    pose proof (resolveNodes_spec n names (S i) w1 d1 Hsz1) as (_ & Hlow & _).
    destruct (Hlow i ltac:(lia)) as (Ea & Er & En). split.
    + intros err He. destruct (Hf err He) as (Fn & Fa & Fr).
      split; [exact (eq_trans En Fn)|]. split; [exact (eq_trans Ea Fa)|].
      exact (eq_trans Er Fr).
    + intros ni He. destruct (Hr ni He) as (Fn & Fa & Fr).
      split; [exact (eq_trans En Fn)|]. split; [exact (eq_trans Ea Fa)|].
      exact (eq_trans Er Fr).
  - destruct (resolveNode i nm (w, d)) as [w1 d1]. simpl in Hsnd, Hsz1, Hoth. subst d1.
    replace (i + S k) with (S i + k) by lia.
    destruct (IH (S i) w1 (snd (getNodeInfo nm d)) k name Hsz1 Hk ltac:(lia))
      as [IHf IHr].
    destruct (Hoth (S i + k) ltac:(lia)) as (Ea & Er & _). split.
    + intros err Hf. apply IHf. by apply getNodeInfo_failed_other.
    + intros ni Hres. destruct (IHr ni) as (Fn & Fa & Fr);
        [by apply getNodeInfo_other|].
      split; [exact Fn|]. split; [exact (eq_trans Fa Ea)|exact (eq_trans Fr Er)].
Qed.

Lemma assumeOne_skips demand ps il w d x i :
  nodeInfos w !! i = Some None →
  let st := assumeOne demand ps il (w, d) x in
  ans (fst st) !! i = ans w !! i ∧ res (fst st) !! i = res w !! i.
Proof.
  intros Hi. destruct (decide (i = x)) as [->|Hne].
  - unfold assumeOne. by rewrite Hi.
  - pose proof (assumeOne_step demand ps il w d x) as (_ & _ & _ & Hoth & _).
    by apply Hoth.
Qed.

Lemma assumeAll_skips demand ps il order :
  ∀ w d i,
    nodeInfos w !! i = Some None →
    let st := foldl (assumeOne demand ps il) (w, d) order in
    ans (fst st) !! i = ans w !! i ∧ res (fst st) !! i = res w !! i.
Proof.
  induction order as [|x order IH]; intros w d i Hi; cbn [foldl]; [done|].
  pose proof (assumeOne_skips demand ps il w d x i Hi) as [Ea Er].
  pose proof (assumeOne_step demand ps il w d x) as (Hn & _).
  destruct (assumeOne demand ps il (w, d) x) as [w1 d1]; simpl in *.
  destruct (IH w1 d1 i) as [-> ->]; [congruence|done].
Qed.

(** A node name that does not resolve is answered false, with the
    resolution error behind a fixed prefix, whatever the workers do. *)
Theorem Assume_unresolved_node sched nodes pod ps il d i name err :
  nodes !! i = Some name →
  fst (getNodeInfo name d) = inl err →
  let out := fst (Assume sched nodes pod ps il d) in
  fst out !! i = Some false
  ∧ snd out !! i = Some (Some ("nano gpu scheduler get node failed: " ++ err)).
Proof.
  intros Hi Hf. unfold Assume.
  assert (sized (length nodes) (newAssumeWork (length nodes))) as Hsz.
  { unfold sized; simpl. by rewrite !length_replicate. }
  pose proof (lookup_lt_Some _ _ _ Hi) as Hlt.
  destruct (resolveNodes_slot (length nodes) nodes 0 _ d i name Hsz Hi ltac:(simpl; lia))
    as [Hfail _].
  destruct (Hfail err Hf) as (Hn & Ha & Hr). simpl in Hn, Ha, Hr.
  destruct (resolveNodes 0 nodes _) as [w1 d1]; simpl in *.
  pose proof (assumeAll_skips (NewDemandFromPod pod) ps il (sched (length nodes))
                w1 d1 i Hn) as [Ea Er].
  destruct (foldl _ _ _) as [w2 d2]; simpl in *.
  split; [exact (eq_trans Ea Ha)|exact (eq_trans Er Hr)].
Qed.

Lemma assumeOne_other_node demand ps il w d x name :
  nodeInfos w !! x ≠ Some (Some name) →
  NodeMaps (snd (assumeOne demand ps il (w, d) x)) !! name = NodeMaps d !! name.
Proof.
  intros Hx. unfold assumeOne. destruct (nodeInfos w !! x) as [[nm|]|]; try done.
  destruct (NodeMaps d !! nm) as [ni|]; [|done].
  destruct (NodeInfo_Assume _ _ _ _ _ _) as [[assumed err] ni']. simpl.
  apply lookup_insert_ne. by intros ->.
Qed.

Lemma assumeAll_other_node demand ps il order :
  ∀ w d name,
    (∀ x, x ∈ order → nodeInfos w !! x ≠ Some (Some name)) →
    NodeMaps (snd (foldl (assumeOne demand ps il) (w, d) order)) !! name
    = NodeMaps d !! name.
Proof.
  induction order as [|x order IH]; intros w d name Hno; cbn [foldl]; [done|].
  pose proof (assumeOne_other_node demand ps il w d x name
                (Hno x (list_elem_of_here _ _))) as Hstep.
  pose proof (assumeOne_step demand ps il w d x) as (Hn & _).
  destruct (assumeOne demand ps il (w, d) x) as [w1 d1]; simpl in *.
  rewrite IH; [done|]. intros y Hy. rewrite Hn. by apply Hno, list_elem_of_further.
Qed.

Lemma assumeOne_resolved demand ps il w d x name ni :
  nodeInfos w !! x = Some (Some name) →
  NodeMaps d !! name = Some ni →
  let r := NodeInfo_Assume demand (CoreUsage d) (MemoryUsage d) ps il
             (NodeInfo_cleanPlan ni) in
  assumeOne demand ps il (w, d) x
  = ({| ans := <[x := fst (fst r)]> (ans w);
        res := <[x := snd (fst r)]> (res w);
        nodeInfos := nodeInfos w |}, store_node name (snd r) d).
Proof.
  intros Hx Hni. unfold assumeOne. rewrite Hx, Hni.
  by destruct (NodeInfo_Assume _ _ _ _ _ _) as [[assumed err] ni'].
Qed.

(** With pointers to distinct nodes, the slot and the node of every
    processed index are what [NodeInfo.Assume] gave for that node. *)
Lemma assumeAll_answers demand ps il order :
  NoDup order →
  ∀ w d i name ni,
    length (ans w) = length (nodeInfos w) →
    length (res w) = length (nodeInfos w) →
    (∀ j k nm, nodeInfos w !! j = Some (Some nm) →
       nodeInfos w !! k = Some (Some nm) → j = k) →
    i ∈ order →
    nodeInfos w !! i = Some (Some name) →
    NodeMaps d !! name = Some ni →
    let st := foldl (assumeOne demand ps il) (w, d) order in
    let r := NodeInfo_Assume demand (CoreUsage d) (MemoryUsage d) ps il
               (NodeInfo_cleanPlan ni) in
    ans (fst st) !! i = Some (fst (fst r))
    ∧ res (fst st) !! i = Some (snd (fst r))
    ∧ NodeMaps (snd st) !! name = Some (snd r).
Proof.
  induction order as [|x order IH]; intros Hnd w d i name ni Hla Hlr Hdist Hin Hi Hni;
    [by apply elem_of_nil in Hin|].
  apply NoDup_cons in Hnd as [Hx Hnd]. cbn [foldl].
  apply elem_of_cons in Hin as [->|Hin].
  - rewrite (assumeOne_resolved demand ps il w d x name ni Hi Hni).
    set (r := NodeInfo_Assume demand (CoreUsage d) (MemoryUsage d) ps il
                (NodeInfo_cleanPlan ni)).
    set (w1 := Build_assumeWork _ _ _).
    pose proof (assumeAll_lengths demand ps il order w1 (store_node name (snd r) d))
      as (_ & _ & _ & Hkeep).
    pose proof (assumeAll_other_node demand ps il order w1
                  (store_node name (snd r) d) name) as Hnode.
    destruct (Hkeep x Hx) as [Ea Er]. pose proof (lookup_lt_Some _ _ _ Hi) as Hlt.
    split; [|split].
    + etrans; [exact Ea|]. apply list_lookup_insert_eq. lia.
    + etrans; [exact Er|]. apply list_lookup_insert_eq.
      change (x < length (res w)). lia.
    + rewrite Hnode; [apply lookup_insert_eq|].
      intros y Hy Hp. assert (y = x) as -> by (by eapply Hdist). done.
  - assert (nodeInfos w !! x ≠ Some (Some name)) as Hxn.
    { intros Hp. assert (x = i) as -> by (by eapply Hdist). done. }
    pose proof (assumeOne_step demand ps il w d x) as (Hn & Hla1 & Hlr1 & _).
    pose proof (assumeOne_frame demand ps il w d x) as [(_ & _ & Hcu & Hmu & _) _].
    pose proof (assumeOne_other_node demand ps il w d x name Hxn) as Hsame.
    destruct (assumeOne demand ps il (w, d) x) as [w1 d1]; simpl in *.
    rewrite <- Hcu, <- Hmu.
    apply IH; try done; try congruence.
    intros j k nm. rewrite Hn. apply Hdist.
Qed.

(** For a request without repeated names, the answer of [Assume] for a
    name that resolves is what [NodeInfo.Assume] returns on the node as
    resolved, after [cleanPlan]; the node after the call is the one that
    call left.  The order in which the workers take the nodes plays no
    part. *)
Theorem Assume_answer_of_node sched nodes pod ps il d i name ni :
  NoDup nodes →
  fairSchedule sched (length nodes) →
  nodes !! i = Some name →
  fst (getNodeInfo name d) = inr ni →
  let out := Assume sched nodes pod ps il d in
  let r := NodeInfo_Assume (NewDemandFromPod pod) (CoreUsage d) (MemoryUsage d)
             ps il (NodeInfo_cleanPlan ni) in
  fst (fst out) !! i = Some (fst (fst r))
  ∧ snd (fst out) !! i = Some (snd (fst r))
  ∧ NodeMaps (snd out) !! name = Some (snd r).
Proof.
  intros Hnd Hfair Hi Hres. unfold Assume.
  assert (sized (length nodes) (newAssumeWork (length nodes))) as Hsz.
  { unfold sized; simpl. by rewrite !length_replicate. }
  pose proof (lookup_lt_Some _ _ _ Hi) as Hlt.
  destruct (resolveNodes_slot (length nodes) nodes 0 _ d i name Hsz Hi ltac:(simpl; lia))
    as [_ Hok].
  destruct (Hok ni Hres) as (Hp & _). simpl in Hp.
  pose proof (resolveNodes_initial nodes d) as ((Hla & Hlr & Hln) & _ & _).
  pose proof (resolveNodes_names nodes d) as Hnames.
  pose proof (resolveNodes_resolves nodes 0 (newAssumeWork (length nodes)) d name ni
                ltac:(by eapply list_elem_of_lookup_2) Hres) as Hstored.
  pose proof (sameOutside_resolveNodes nodes 0 (newAssumeWork (length nodes)) d)
    as (_ & _ & Hcu & Hmu & _).
  destruct (resolveNodes 0 nodes _) as [w1 d1]; simpl in *.
  rewrite <- Hcu, <- Hmu.
  assert (NoDup (sched (length nodes))) as Hnds.
  { unfold fairSchedule in Hfair. rewrite Hfair. apply NoDup_seq. }
  pose proof (assumeAll_answers (NewDemandFromPod pod) ps il _ Hnds w1 d1 i name ni
                ltac:(congruence) ltac:(congruence)) as Hall.
  destruct (foldl _ _ _) as [w2 d2]; simpl in *. apply Hall; try done.
  - intros j k nm Hj Hk. apply (NoDup_lookup nodes j k nm); [done|by apply Hnames..].
  - unfold fairSchedule in Hfair. rewrite Hfair. apply elem_of_seq. lia.
Qed.

Lemma assumeAll_order demand ps il o1 o2 w d :
  NoDup o1 → NoDup o2 → (∀ i, i ∈ o1 ↔ i ∈ o2) →
  length (ans w) = length (nodeInfos w) →
  length (res w) = length (nodeInfos w) →
  (∀ j k nm, nodeInfos w !! j = Some (Some nm) →
     nodeInfos w !! k = Some (Some nm) → j = k) →
  (∀ i nm, nodeInfos w !! i = Some (Some nm) → is_Some (NodeMaps d !! nm)) →
  foldl (assumeOne demand ps il) (w, d) o1
  = foldl (assumeOne demand ps il) (w, d) o2.
Proof.
  intros Hnd1 Hnd2 Hsame Hla Hlr Hdist Hstored.
  pose proof (assumeAll_lengths demand ps il o1 w d) as (Hn1 & Hla1 & Hlr1 & Hout1).
  pose proof (assumeAll_lengths demand ps il o2 w d) as (Hn2 & Hla2 & Hlr2 & Hout2).
  pose proof (assumeAll_frame demand ps il o1 w d) as [(Hc1 & Hra1 & Hcu1 & Hmu1 & Hre1) Hp1].
  pose proof (assumeAll_frame demand ps il o2 w d) as [(Hc2 & Hra2 & Hcu2 & Hmu2 & Hre2) Hp2].
  pose proof (assumeAll_answers demand ps il o1 Hnd1 w d) as Hans1.
  pose proof (assumeAll_answers demand ps il o2 Hnd2 w d) as Hans2.
  pose proof (assumeAll_skips demand ps il o1 w d) as Hskip1.
  pose proof (assumeAll_skips demand ps il o2 w d) as Hskip2.
  pose proof (assumeAll_other_node demand ps il o1 w d) as Hoth1.
  pose proof (assumeAll_other_node demand ps il o2 w d) as Hoth2.
  destruct (foldl (assumeOne demand ps il) (w, d) o1) as [wa da].
  destruct (foldl (assumeOne demand ps il) (w, d) o2) as [wb db]. simpl in *.
  assert (∀ i, ans wa !! i = ans wb !! i ∧ res wa !! i = res wb !! i) as Hslots.
  { intros i. destruct (decide (i ∈ o1)) as [Hin|Hnin].
    - destruct (nodeInfos w !! i) as [[nm|]|] eqn:Hi.
      + destruct (Hstored i nm Hi) as [ni Hni].
        destruct (Hans1 i nm ni Hla Hlr Hdist Hin Hi Hni) as (Ea & Er & _).
        destruct (Hans2 i nm ni Hla Hlr Hdist (proj1 (Hsame i) Hin) Hi Hni)
          as (Eb & Ee & _).
        split; [exact (eq_trans Ea (eq_sym Eb))|exact (eq_trans Er (eq_sym Ee))].
      + destruct (Hskip1 i Hi) as [Ea Er]. destruct (Hskip2 i Hi) as [Eb Ee].
        split; [exact (eq_trans Ea (eq_sym Eb))|exact (eq_trans Er (eq_sym Ee))].
      + apply lookup_ge_None in Hi. split.
        * rewrite (lookup_ge_None_2 (ans wa)), (lookup_ge_None_2 (ans wb)); [done|lia..].
        * etrans; [apply lookup_ge_None_2|symmetry; apply lookup_ge_None_2].
          -- change (length (res wa) ≤ i)%nat.
             change (length (res wa) = length (res w)) in Hlr1.
             change (length (res w) = length (nodeInfos w)) in Hlr. lia.
          -- change (length (res wb) ≤ i)%nat.
             change (length (res wb) = length (res w)) in Hlr2.
             change (length (res w) = length (nodeInfos w)) in Hlr. lia.
    - destruct (Hout1 i Hnin) as [Ea Er].
      destruct (Hout2 i) as [Eb Ee]; [by rewrite <- Hsame|].
      split; [exact (eq_trans Ea (eq_sym Eb))|exact (eq_trans Er (eq_sym Ee))]. }
  assert (NodeMaps da = NodeMaps db) as Hnodes.
  { apply map_eq. intros nm.
    destruct (decide (Exists (λ i, nodeInfos w !! i = Some (Some nm)) o1)) as [Hex|Hno].
    - apply Exists_exists in Hex as (i & Hin & Hi).
      destruct (Hstored i nm Hi) as [ni Hni].
      destruct (Hans1 i nm ni Hla Hlr Hdist Hin Hi Hni) as (_ & _ & ->).
      by destruct (Hans2 i nm ni Hla Hlr Hdist (proj1 (Hsame i) Hin) Hi Hni)
        as (_ & _ & ->).
    - rewrite Hoth1, Hoth2; [done|..].
      + intros x Hx Hp. apply Hno, Exists_exists. exists x. by rewrite Hsame.
      + intros x Hx Hp. apply Hno, Exists_exists. by exists x. }
  assert (wa = wb) as ->.
  { destruct wa as [a1 r1 n1], wb as [a2 r2 n2]. simpl in *. f_equal.
    - apply list_eq. intros i. apply Hslots.
    - apply list_eq. intros i. apply Hslots.
    - congruence. }
  f_equal. destruct da, db. simpl in *. f_equal; congruence.
Qed.

(** For a request without repeated names, the answers of [Assume] and the
    dealer it leaves do not depend on the order in which the workers
    process the nodes. *)
Theorem Assume_schedule_independent sched sched' nodes pod ps il d :
  NoDup nodes →
  fairSchedule sched (length nodes) →
  fairSchedule sched' (length nodes) →
  Assume sched nodes pod ps il d = Assume sched' nodes pod ps il d.
Proof.
  intros Hnd Hf Hf'. unfold Assume.
  pose proof (resolveNodes_initial nodes d) as ((Hla & Hlr & Hln) & Hat & _).
  pose proof (resolveNodes_names nodes d) as Hnames.
  destruct (resolveNodes 0 nodes _) as [w1 d1]; simpl in *.
  unfold fairSchedule in *.
  rewrite (assumeAll_order (NewDemandFromPod pod) ps il (sched (length nodes))
             (sched' (length nodes)) w1 d1); try done.
  - rewrite Hf. apply NoDup_seq.
  - rewrite Hf'. apply NoDup_seq.
  - intros i. by rewrite Hf, Hf'.
  - congruence.
  - change (length (res w1) = length (nodeInfos w1)).
    change (length (res w1) = length nodes) in Hlr. congruence.
  - intros j k nm Hj Hk. apply (NoDup_lookup nodes j k nm); [done|by apply Hnames..].
  - intros i nm Hi. apply Hnames in Hi as Hnode.
    destruct (Hat i nm Hnode) as [([Hp Hs] & _)|(Hp & _)]; [exact Hs|congruence].
Qed.

End AssumeAnswers.

(** ** The prioritize handler and [NewDealer] *)

Section PrioritizeAndNewDealer.
Context {C : Type} {api : ClusterAPI C} {eng : NodeEngine}.
Implicit Types (d : DealerImpl C).

Lemma priorities_spec (ns : list string) :
  ∀ (scores : list Z) i (pl : list extender.HostPriority),
    length pl = length ns →
    (i + length scores ≤ length ns)%nat →
    ∃ l, priorities i scores ns pl = Some l
         ∧ length l = length ns
         ∧ (∀ j, j < i → l !! j = pl !! j)
         ∧ (∀ k s, scores !! k = Some s →
              ∃ name, ns !! (i + k) = Some name
                      ∧ l !! (i + k)
                        = Some {| extender.Host := name; extender.HostScore := s |}).
Proof.
  induction scores as [|s scores IH]; intros i pl Hlen Hi; cbn [priorities].
  { exists pl. split; [done|]. split; [done|]. split; [done|].
    intros k s Hk. by rewrite lookup_nil in Hk. }
  simpl in Hi. destruct (lookup_lt_is_Some_2 ns i ltac:(lia)) as [name Hname].
  rewrite Hname. rewrite decide_True by lia.
  destruct (IH (S i) (<[i := {| extender.Host := name; extender.HostScore := s |}]> pl))
    as (l & Heq & Hl & Hlow & Hat).
  { by rewrite length_insert. }
  { lia. }
  exists l. split; [done|]. split; [done|]. split.
  - intros j Hj. rewrite Hlow by lia. apply list_lookup_insert_ne. lia.
  - intros [|k] s' Hk; simpl in Hk.
    + injection Hk as <-. exists name. rewrite Nat.add_0_r. split; [done|].
      rewrite Hlow by lia. apply list_lookup_insert_eq. lia.
    + replace (i + S k) with (S i + k) by lia. by apply Hat.
Qed.

(** The prioritize handler returns one entry per node name of the request,
    in the order of the request: the name with the score [Score] gave it.
    It leaves the dealer as [Score] left it. *)
Theorem Prioritize_Handler_pairs_names_with_scores ps il pod ns d :
  let out := Score ns pod ps il d in
  ∃ l,
    Prioritize_Handler ps il
      {| extender.Pod := pod; extender.NodeNames := Some ns |} d
    = (Some l, snd out)
    ∧ length l = length ns
    ∧ ∀ i name, ns !! i = Some name →
        ∃ s, fst out !! i = Some s
             ∧ l !! i = Some {| extender.Host := name; extender.HostScore := s |}.
Proof.
  intros out. unfold Prioritize_Handler. simpl. fold out.
  pose proof (scoreNodes_spec (NewDemandFromPod pod) ps il ns 0
                (replicate (length ns) 0%Z) d) as (Hlen & _).
  rewrite length_replicate in Hlen. fold (Score ns pod ps il d) in Hlen. fold out in Hlen.
  destruct out as [scores d'] eqn:Hout. simpl in *.
  destruct (priorities_spec ns scores 0
              (replicate (length ns) {| extender.Host := ""; extender.HostScore := 0 |}))
    as (l & Heq & Hl & _ & Hat).
  { by rewrite length_replicate. }
  { simpl. lia. }
  exists l. rewrite Heq. split; [done|]. split; [done|].
  intros i name Hi.
  destruct (lookup_lt_is_Some_2 scores i) as [s Hs].
  { apply lookup_lt_Some in Hi. lia. }
  exists s. split; [done|]. destruct (Hat i s Hs) as (nm & Hnm & Hli).
  simpl in *. by assert (nm = name) as -> by congruence.
Qed.

Lemma getNodeInfo_new_key name d n :
  is_Some (NodeMaps (snd (getNodeInfo name d)) !! n) →
  is_Some (NodeMaps d !! n) ∨ n = name.
Proof.
  destruct (getNodeInfo name d) as [[err|ni] d1] eqn:Hg; simpl.
  - apply getNodeInfo_failed in Hg as [-> _]. by left.
  - destruct (decide (n = name)) as [->|Hne]; [by right|].
    apply getNodeInfo_resolved in Hg as (_ & Ho & _). rewrite Ho by done. by left.
Qed.

Lemma seedPodNodes_spec pods :
  ∀ d,
    let d' := foldl seedPodNode d pods in
    sameOutside d d'
    ∧ (∀ n, is_Some (NodeMaps d' !! n) →
         is_Some (NodeMaps d !! n)
         ∨ (n ≠ "" ∧ ∃ pod, pod ∈ pods ∧ v1.NodeName pod = n))
    ∧ (∀ pod ni, pod ∈ pods → v1.NodeName pod ≠ "" →
         fst (getNodeInfo (v1.NodeName pod) d) = inr ni →
         NodeMaps d' !! v1.NodeName pod = Some ni)
    ∧ (∀ n ni, NodeMaps d !! n = Some ni → NodeMaps d' !! n = Some ni).
Proof.
  induction pods as [|pod pods IH]; intros d; cbn [foldl].
  { split; [apply sameOutside_refl|]. split; [by left|]. split; [|done].
    intros pod ni Hin. by apply elem_of_nil in Hin. }
  destruct (IH (seedPodNode d pod)) as (Hs & Hkeys & Hres & Hmono).
  assert (sameOutside d (seedPodNode d pod)) as Hs1.
  { unfold seedPodNode. case_decide; [apply sameOutside_refl|].
    apply sameOutside_getNodeInfo. }
  assert (∀ n ni, NodeMaps d !! n = Some ni →
            NodeMaps (seedPodNode d pod) !! n = Some ni) as Hmono1.
  { intros n ni Hn. unfold seedPodNode. case_decide; [done|].
    by apply getNodeInfo_keeps. }
  split; [by eapply sameOutside_trans|]. split; [|split].
  - intros n Hn. destruct (Hkeys n Hn) as [Hold|(Hne & p & Hin & Hp)].
    + unfold seedPodNode in Hold. case_decide as Hempty; [by left|].
      apply getNodeInfo_new_key in Hold as [?|Heq]; [by left|right].
      subst n. split; [done|]. exists pod. split; [apply list_elem_of_here|done].
    + right. split; [done|]. exists p. split; [by apply list_elem_of_further|done].
  - intros p ni Hin Hne Hget.
    assert (fst (getNodeInfo (v1.NodeName p) (seedPodNode d pod)) = inr ni) as Hget'.
    { unfold seedPodNode. case_decide; [done|]. by apply getNodeInfo_other. }
    apply elem_of_cons in Hin as [->|Hin]; [|by apply Hres].
    apply Hmono. unfold seedPodNode. rewrite decide_False by done.
    destruct (getNodeInfo (v1.NodeName pod) d) as [[e|n1] d1] eqn:Hg; [done|].
    simpl in *. injection Hget as ->.
    by apply getNodeInfo_resolved in Hg as (Hk & _).
  - intros n ni Hn. by apply Hmono, Hmono1.
Qed.

(** [NewDealer] fails exactly when the pods cannot be listed.  Otherwise the
    dealer it returns is on the given cluster with an empty
    [ReleasedPodMap]; its nodes are non-empty node names of listed pods;
    and the node of every listed pod that resolves is seeded, as it
    resolves on the fresh dealer. *)
Theorem NewDealer_seeds_listed_nodes c rater :
  (∀ err, Pods_List c None = inl err → NewDealer c rater = inl err)
  ∧ (∀ pods, Pods_List c None = inr pods →
       ∃ d, NewDealer c rater = inr d
            ∧ Client d = c
            ∧ ReleasedPodMap d = ∅
            ∧ (∀ n, is_Some (NodeMaps d !! n) →
                 n ≠ "" ∧ ∃ pod, pod ∈ pods ∧ v1.NodeName pod = n)
            ∧ (∀ pod ni, pod ∈ pods → v1.NodeName pod ≠ "" →
                 fst (getNodeInfo (v1.NodeName pod) (freshDealer c rater)) = inr ni →
                 NodeMaps d !! v1.NodeName pod = Some ni)).
Proof.
  unfold NewDealer. split.
  { by intros err ->. }
  intros pods ->. eexists. split; [reflexivity|].
  destruct (seedPodNodes_spec pods (freshDealer c rater))
    as ((Hc & _ & _ & _ & Hr) & Hkeys & Hres & _).
  fold (freshDealer c rater). split; [exact Hc|]. split; [exact Hr|]. split.
  - intros n Hn. destruct (Hkeys n Hn) as [[ni Hold]|?]; [|done].
    simpl in Hold. by rewrite lookup_empty in Hold.
  - exact Hres.
Qed.

End PrioritizeAndNewDealer.

(** ** [Score]: the score of each node *)

Section ScoreOfNode.
Context {C : Type} {api : ClusterAPI C} {eng : NodeEngine}.
Implicit Types (d : DealerImpl C).

(** What a name resolves to is not changed by a method call on another
    node. *)
Lemma getNodeInfo_store_other name other ni d :
  name ≠ other →
  fst (getNodeInfo name (store_node other ni d)) = fst (getNodeInfo name d).
Proof.
  intros Hne. destruct (NodeMaps d !! name) as [n0|] eqn:Hk.
  - rewrite (getNodeInfo_known _ _ _ Hk).
    erewrite getNodeInfo_known; [done|]. simpl. by rewrite lookup_insert_ne.
  - apply getNodeInfo_same_node; try done. simpl. by rewrite lookup_insert_ne.
Qed.

Lemma scoreNode_other demand ps il i nm scores d name :
  name ≠ nm →
  let st := scoreNode demand ps il i nm (scores, d) in
  fst (getNodeInfo name (snd st)) = fst (getNodeInfo name d)
  ∧ (∀ x, NodeMaps d !! name = Some x → NodeMaps (snd st) !! name = Some x).
Proof.
  intros Hne. unfold scoreNode.
  pose proof (getNodeInfo_keeps nm d name) as Hkeep.
  destruct (getNodeInfo nm d) as [[err|ni1] d1] eqn:Hg; simpl in *.
  - apply getNodeInfo_failed in Hg as [-> _]. done.
  - destruct (NodeInfo_Score _ _ _ _ _ _) as [s ni']. simpl. split.
    + rewrite getNodeInfo_store_other by done.
      destruct (fst (getNodeInfo name d)) as [e|n0] eqn:Hres.
      * pose proof (getNodeInfo_failed_other name nm d e Hres) as Hf.
        by rewrite Hg in Hf.
      * pose proof (getNodeInfo_other name nm d n0 Hres) as Hf.
        by rewrite Hg in Hf.
    + intros x Hx. rewrite lookup_insert_ne by done. by apply Hkeep.
Qed.

Lemma scoreNodes_keeps_node demand ps il names :
  ∀ i scores d name x,
    name ∉ names → NodeMaps d !! name = Some x →
    NodeMaps (snd (scoreNodes demand ps il i names (scores, d))) !! name = Some x.
Proof.
  induction names as [|nm names IH]; intros i scores d name x Hnot Hx;
    cbn [scoreNodes]; [done|].
  apply not_elem_of_cons in Hnot as [Hne Hnot].
  pose proof (scoreNode_other demand ps il i nm scores d name Hne) as [_ Hk].
  destruct (scoreNode demand ps il i nm (scores, d)) as [s1 d1]. simpl in Hk.
  apply IH; [done|by apply Hk].
Qed.

Lemma scoreNodes_of_node demand ps il names :
  ∀ i scores d k name ni,
    NoDup names → names !! k = Some name → i + k < length scores →
    fst (getNodeInfo name d) = inr ni →
    let st := scoreNodes demand ps il i names (scores, d) in
    let r := NodeInfo_Score demand (CoreUsage d) (MemoryUsage d) ps il ni in
    fst st !! (i + k) = Some (fst r) ∧ NodeMaps (snd st) !! name = Some (snd r).
Proof.
  induction names as [|nm names IH]; intros i scores d k name ni Hnd Hk Hlt Hres;
    [by rewrite lookup_nil in Hk|].
  apply NoDup_cons in Hnd as [Hnm Hnd]. cbn [scoreNodes].
  destruct k as [|k]; simpl in Hk.
  - injection Hk as ->. rewrite Nat.add_0_r in *.
    pose proof (scoreNodes_spec demand ps il names (S i)) as Hlater.
    pose proof (scoreNodes_keeps_node demand ps il names (S i)) as Hnode.
    unfold scoreNode.
    pose proof (sameOutside_getNodeInfo name d) as (_ & _ & Hcu & Hmu & _).
    destruct (getNodeInfo name d) as [[e|n1] d1]; simpl in *; [done|].
    injection Hres as ->. rewrite Hcu, Hmu.
    destruct (NodeInfo_Score _ _ _ _ _ _) as [s ni']. simpl.
    destruct (Hlater (<[i := s]> scores) (store_node name ni' d1)) as (_ & Hlow & _).
    rewrite Hlow by lia. split.
    + apply list_lookup_insert_eq. lia.
    + apply Hnode; [done|]. simpl. apply lookup_insert_eq.
  - assert (name ≠ nm) as Hne.
    { intros ->. apply Hnm. by eapply list_elem_of_lookup_2. }
    pose proof (scoreNode_other demand ps il i nm scores d name Hne) as [Hsame _].
    pose proof (scoreNode_step demand ps il i nm scores d) as (Hlen & _).
    pose proof (scoreNode_outside demand ps il i nm scores d) as [(_ & _ & Hcu & Hmu & _) _].
    destruct (scoreNode demand ps il i nm (scores, d)) as [s1 d1]. simpl in *.
    replace (i + S k) with (S i + k) by lia. rewrite <- Hcu, <- Hmu.
    apply IH; [done|done|lia|congruence].
Qed.

(** For a request without repeated names, the score of a name that
    resolves is what [NodeInfo.Score] returns on the node as resolved, and
    the node after the call is the one that call left. *)
Theorem Score_of_node nodes pod ps il d i name ni :
  NoDup nodes →
  nodes !! i = Some name →
  fst (getNodeInfo name d) = inr ni →
  let out := Score nodes pod ps il d in
  let r := NodeInfo_Score (NewDemandFromPod pod) (CoreUsage d) (MemoryUsage d)
             ps il ni in
  fst out !! i = Some (fst r) ∧ NodeMaps (snd out) !! name = Some (snd r).
Proof.
  intros Hnd Hi Hres. unfold Score.
  apply (scoreNodes_of_node (NewDemandFromPod pod) ps il nodes 0 _ d i name ni);
    try done.
  rewrite length_replicate. apply lookup_lt_Some in Hi. simpl. lia.
Qed.

End ScoreOfNode.

(** ** The filter handler on any predicate function *)

Section HandlerPanics.
Context {C : Type} {api : ClusterAPI C} {eng : NodeEngine}.
Implicit Types (d : DealerImpl C).

Lemma collect_panics (ns : list string) (res : list (option error)) :
  ∀ (can : list bool) i cs cns,
    (i ≤ length ns)%nat →
    (length ns < i + length can)%nat
    ∨ (∃ k, can !! k = Some false ∧ ∀ e, res !! (i + k) ≠ Some (Some e)) →
    collect i can ns res cs cns = None.
Proof.
  induction can as [|b can IH]; intros i cs cns Hi Hbad; cbn [collect].
  { destruct Hbad as [Hlen|(k & Hk & _)]; [simpl in Hlen; lia|].
    by rewrite lookup_nil in Hk. }
  destruct (ns !! i) as [name|] eqn:Hname; [|done].
  apply lookup_lt_Some in Hname.
  assert ((length ns < S i + length can)%nat
          ∨ (∃ k, can !! k = Some false ∧ ∀ e, res !! (S i + k) ≠ Some (Some e))
          ∨ (b = false ∧ ∀ e, res !! i ≠ Some (Some e))) as Hcases.
  { destruct Hbad as [Hlen|([|k] & Hk & Hno)].
    - left. simpl in Hlen. lia.
    - right; right. simpl in Hk. injection Hk as ->.
      rewrite Nat.add_0_r in Hno. done.
    - right; left. exists k. split; [done|].
      by replace (S i + k) with (i + S k) by lia. }
  destruct b.
  - apply IH; [lia|]. destruct Hcases as [?|[?|[? _]]]; [by left|by right|done].
  - destruct (res !! i) as [[e|]|] eqn:Hr; try done.
    apply IH; [lia|]. destruct Hcases as [?|[?|[_ Hno]]]; [by left|by right|].
    by destruct (Hno e).
Qed.

(** The filter handler panics when its predicate function answers false
    for a node without an error, or returns more answers than there are
    node names; the dealer is then as the function left it. *)
Theorem Predicate_Handler_panics (p : Predicate) pod ns d can res d' :
  Func p pod ns d = ((can, res), d') →
  (length ns < length can)%nat
  ∨ (∃ i, can !! i = Some false ∧ ∀ e, res !! i ≠ Some (Some e)) →
  Predicate_Handler p {| extender.Pod := pod; extender.NodeNames := Some ns |} d
  = (None, d').
Proof.
  intros Hf Hbad. unfold Predicate_Handler. simpl. rewrite Hf.
  by rewrite (collect_panics ns res can 0 [] ∅ ltac:(lia) Hbad).
Qed.

End HandlerPanics.

(** ** [Assume] and [Score] on nodes that are stored *)

Section Quiet.
Context {C : Type} {api : ClusterAPI C} {eng : NodeEngine}.
Implicit Types (d : DealerImpl C).

Lemma getNodeInfo_quiet name d :
  is_Some (NodeMaps d !! name) ∨ unresolvable name d →
  snd (getNodeInfo name d) = d.
Proof.
  intros [[ni Hk]|[err He]].
  - by rewrite (getNodeInfo_known _ _ _ Hk).
  - destruct (getNodeInfo name d) as [[e|ni] d1] eqn:Hg; [|done].
    by apply getNodeInfo_failed in Hg as [-> _].
Qed.

Lemma resolveNodes_quiet names :
  ∀ i w d,
    (∀ name, name ∈ names → is_Some (NodeMaps d !! name) ∨ unresolvable name d) →
    snd (resolveNodes i names (w, d)) = d.
Proof.
  induction names as [|name names IH]; intros i w d Hall; cbn [resolveNodes]; [done|].
  pose proof (resolveNode_dealer i name w d) as Hsnd.
  rewrite (getNodeInfo_quiet name d (Hall name (list_elem_of_here _ _))) in Hsnd.
  destruct (resolveNode i name (w, d)) as [w1 d1]. simpl in Hsnd. subst d1.
  apply IH. intros nm Hnm. by apply Hall, list_elem_of_further.
Qed.

Lemma scoreNodes_quiet demand ps il names :
  ∀ i scores d,
    (∀ name, name ∈ names → is_Some (NodeMaps d !! name) ∨ unresolvable name d) →
    PodMaps (snd (scoreNodes demand ps il i names (scores, d))) = PodMaps d.
Proof.
  induction names as [|name names IH]; intros i scores d Hall; cbn [scoreNodes]; [done|].
  pose proof (scoreNode_step demand ps il i name scores d) as (_ & _ & _ & Hun).
  pose proof (scoreNode_outside demand ps il i name scores d) as [_ Hkeys].
  assert (PodMaps (snd (scoreNode demand ps il i name (scores, d))) = PodMaps d) as Hp.
  { unfold scoreNode.
    pose proof (getNodeInfo_quiet name d (Hall name (list_elem_of_here _ _))) as Hq.
    destruct (getNodeInfo name d) as [[e|ni] d1]; simpl in *; subst d1; [done|].
    by destruct (NodeInfo_Score _ _ _ _ _ _). }
  destruct (scoreNode demand ps il i name (scores, d)) as [s1 d1]. simpl in *.
  rewrite IH; [done|]. intros nm Hnm.
  destruct (Hall nm (list_elem_of_further _ _ _ Hnm)) as [?|?]; [left|right]; auto.
Qed.

(** A filter or prioritize request whose node names are all stored already
    (or do not resolve) records no pod: [PodMaps] is unchanged by [Assume]
    and by [Score]. *)
Theorem Assume_and_Score_record_no_pod sched nodes pod ps il d :
  (∀ name, name ∈ nodes → is_Some (NodeMaps d !! name) ∨ unresolvable name d) →
  PodMaps (snd (Assume sched nodes pod ps il d)) = PodMaps d
  ∧ PodMaps (snd (Score nodes pod ps il d)) = PodMaps d.
Proof.
  intros Hall. split.
  - unfold Assume.
    pose proof (resolveNodes_quiet nodes 0 (newAssumeWork (length nodes)) d Hall) as Hq.
    destruct (resolveNodes 0 nodes _) as [w1 d1]. simpl in Hq. subst d1.
    pose proof (assumeAll_frame (NewDemandFromPod pod) ps il (sched (length nodes))
                  w1 d) as [_ Hp].
    by destruct (foldl _ _ _) as [w2 d2].
  - unfold Score. by apply scoreNodes_quiet.
Qed.

End Quiet.

(** * The further properties on the scripted cluster *)

Module ScriptedExtras.
Import Mock Examples.

#[local] Existing Instance Mock.api.
#[local] Existing Instance SpecEngine.engine.

(** The workers taking the last node first. *)
Lemma lifo_fair n : fairSchedule (λ k, reverse (seq 0 k)) n.
Proof. unfold fairSchedule. apply reverse_Permutation. Qed.

Lemma two_names_distinct : NoDup ["n1"; "n9"].
Proof. apply (bool_decide_unpack _). vm_compute. exact I. Qed.

Lemma started_by_NewDealer :
  NewDealer (cluster [bound1] [] []) SpecEngine.BinPack = inr started.
Proof. reflexivity. Qed.

Lemma getNodeInfo_seeds_once_witness :
  ∃ (ni : SpecEngine.NodeInfo) d1,
    getNodeInfo "n1" (dealer (cluster [bound1] [] [])) = (inr ni, d1)
    ∧ getNodeInfo "n1" d1 = (inr ni, d1).
Proof.
  eexists _, _. split; [reflexivity|].
  apply (getNodeInfo_seeds_once "n1" (dealer (cluster [bound1] [] []))).
  reflexivity.
Defined.

(** [bound1] and [bound8] run on [n1]: the seeding records both UIDs, and
    both lead to [bound8], the last pod listed. *)
Lemma getNodeInfo_records_listed_pods_witness :
  let d := dealer (cluster [bound1; bound8] [] []) in
  ∃ (node : v1.Node) (pods : list v1.Pod),
    NodeLister_Get (Client d) "n1" = inr node
    ∧ Pods_List (Client d) (Some "n1") = inr pods
    ∧ (∀ u p, PodMaps (snd (getNodeInfo "n1" d)) !! u = Some p →
         PodMaps d !! u = Some p
         ∨ (last pods = Some p
            ∧ ∃ q plan, q ∈ pods ∧ v1.UID q = u ∧ NewPlanFromPod q = inr plan))
    ∧ (∀ u, is_Some (PodMaps d !! u) →
         is_Some (PodMaps (snd (getNodeInfo "n1" d)) !! u)).
Proof.
  intros d.
  eapply (getNodeInfo_records_listed_pods "n1" d); reflexivity.
Defined.

Example seeding_shares_the_last_pod :
  let d := snd (getNodeInfo "n1" (dealer (cluster [bound1; bound8] [] []))) in
  PodMaps d !! "u1" = Some bound8
  ∧ PodMaps d !! "u8" = Some bound8
  ∧ committed "n1" d = Some [(30, 4096); (50, 2048)]%Z.
Proof. repeat split; vm_compute; reflexivity. Qed.

Lemma nodes_are_never_removed_witness :
  is_Some (NodeMaps (run (OpRelease bound1) started) !! "n1").
Proof. apply nodes_are_never_removed. eexists. reflexivity. Defined.

Lemma only_Bind_writes_the_cluster_witness :
  Client (run (OpAllocate bound8) started) = Client started.
Proof. apply only_Bind_writes_the_cluster. intros; discriminate. Defined.

Lemma Bind_after_first_update_witness :
  ∃ d', Bind "n1" pod1 policy false (assumed []) = (None, d').
Proof.
  eexists.
  edestruct (Bind_after_first_update "n1" pod1 policy false (assumed []))
    as [Hbound _].
  - do 5 eexists. split; [reflexivity|].
    split; [reflexivity|]. split; [reflexivity|]. split; reflexivity.
  - reflexivity.
  - eapply Hbound. reflexivity.
Defined.

Lemma Bind_error_records_no_pod_witness :
  let d := snd (Assume fifo ["n1"] pod1 policy false
                  (dealer (cluster [pod1] [] [Some "binding rejected"]))) in
  ∃ d', Bind "n1" pod1 policy false d = (Some "binding rejected", d')
        ∧ PodMaps d' = PodMaps (snd (getNodeInfo "n1" d)).
Proof.
  intros d. eexists. split; [reflexivity|].
  apply (Bind_error_records_no_pod "n1" pod1 policy false d "binding rejected").
  reflexivity.
Defined.

Lemma Allocate_records_new_pod_witness :
  ∃ d', Allocate bound8 started = (None, d') ∧ KnownPod bound8 d' = true.
Proof.
  eexists. split; [reflexivity|].
  edestruct (Allocate_records_new_pod bound8 started) as (plan & ni' & _ & _ & _ & Hk);
    [reflexivity|reflexivity|reflexivity|exact Hk].
Defined.

Lemma Allocate_error_records_no_pod_witness :
  ∃ d', Allocate unseen started
        = (Some "malformed plan: no gpu index annotation", d')
        ∧ PodMaps d' = PodMaps (snd (getNodeInfo "n1" started)).
Proof.
  eexists. split; [reflexivity|].
  apply (Allocate_error_records_no_pod unseen started
           "malformed plan: no gpu index annotation"); [discriminate|reflexivity].
Defined.

Lemma Release_moves_known_pod_witness :
  ∃ d', Release bound1 started = (None, d')
        ∧ KnownPod bound1 d' = false ∧ PodReleased bound1 d' = true.
Proof.
  eexists. split; [reflexivity|].
  edestruct (Release_moves_known_pod bound1 started) as (_ & _ & Hk & Hr);
    [reflexivity|reflexivity|reflexivity|]. split; [exact Hk|exact Hr].
Defined.

Lemma Release_error_moves_nothing_witness :
  ∃ d', Release (mkPod "u1" "n1" [(30, 4096)%Z]) started
        = (Some "malformed plan: no gpu index annotation", d')
        ∧ PodMaps d' = PodMaps (snd (getNodeInfo "n1" started))
        ∧ ReleasedPodMap d' = ReleasedPodMap started.
Proof.
  eexists. split; [reflexivity|].
  apply (Release_error_moves_nothing (mkPod "u1" "n1" [(30, 4096)%Z]) started
           "malformed plan: no gpu index annotation"). reflexivity.
Defined.

Lemma Release_twice_witness :
  ∃ d1, Release bound1 started = (None, d1) ∧ Release bound1 d1 = (None, d1).
Proof.
  eexists. split; [reflexivity|].
  apply (Release_twice bound1 started). reflexivity.
Defined.

Lemma Allocate_then_Release_witness :
  fst (Allocate bound8 started) = None
  ∧ Release bound8 (snd (Allocate bound8 started))
    = (None, set_ReleasedPodMap ({["u8"]} ∪ ReleasedPodMap started) started).
Proof.
  eapply (Allocate_then_Release bound8 started).
  - discriminate.
  - reflexivity.
  - reflexivity.
  - reflexivity.
  - reflexivity.
  - reflexivity.
Defined.

Lemma Forget_unknown_witness : Forget unseen started = (None, started).
Proof.
  apply Forget_unknown; [reflexivity|].
  rewrite (NewDealer_released _ _ _ started_by_NewDealer). apply not_elem_of_empty.
Defined.

Lemma Assume_unresolved_node_witness :
  let out := fst (Assume fifo ["n1"; "n9"] pod1 policy false
                    (dealer (cluster [pod1] [] []))) in
  fst out !! 1 = Some false
  ∧ snd out !! 1
    = Some (Some "nano gpu scheduler get node failed: node n9 not found").
Proof.
  apply (Assume_unresolved_node fifo ["n1"; "n9"] pod1 policy false
           (dealer (cluster [pod1] [] [])) 1 "n9" "node n9 not found");
    reflexivity.
Defined.

Lemma Assume_answer_of_node_witness :
  ∃ ni : SpecEngine.NodeInfo,
    fst (getNodeInfo "n1" (dealer (cluster [pod1] [] []))) = inr ni
    ∧ let out := Assume (λ k, reverse (seq 0 k)) ["n1"; "n9"] pod1 policy false
                   (dealer (cluster [pod1] [] [])) in
      let r := SpecEngine.Assume (SpecEngine.NewDemandFromPod pod1)
                 (SpecEngine.cleanPlan ni) in
      fst (fst out) !! 0 = Some (fst (fst r))
      ∧ snd (fst out) !! 0 = Some (snd (fst r))
      ∧ NodeMaps (snd out) !! "n1" = Some (snd r).
Proof.
  eexists. split; [reflexivity|].
  apply (Assume_answer_of_node (λ k, reverse (seq 0 k)) ["n1"; "n9"] pod1 policy
           false (dealer (cluster [pod1] [] [])) 0 "n1").
  - apply two_names_distinct.
  - apply lifo_fair.
  - reflexivity.
  - reflexivity.
Defined.

Lemma Assume_schedule_independent_witness :
  Assume fifo ["n1"; "n9"] pod1 policy false (dealer (cluster [pod1] [] []))
  = Assume (λ k, reverse (seq 0 k)) ["n1"; "n9"] pod1 policy false
      (dealer (cluster [pod1] [] [])).
Proof.
  apply Assume_schedule_independent.
  - apply two_names_distinct.
  - apply (ScriptedRuns.fifo_fair 2).
  - apply lifo_fair.
Defined.

Lemma Score_of_node_witness :
  ∃ ni : SpecEngine.NodeInfo,
    fst (getNodeInfo "n1" (dealer (cluster [pod1] [] []))) = inr ni
    ∧ let out := Score ["n1"; "n9"] pod1 policy false (dealer (cluster [pod1] [] [])) in
      let r := SpecEngine.Score (SpecEngine.NewDemandFromPod pod1) ni in
      fst out !! 0 = Some (fst r) ∧ NodeMaps (snd out) !! "n1" = Some (snd r).
Proof.
  eexists. split; [reflexivity|].
  apply (Score_of_node ["n1"; "n9"] pod1 policy false
           (dealer (cluster [pod1] [] [])) 0 "n1").
  - apply two_names_distinct.
  - reflexivity.
  - reflexivity.
Defined.

Lemma NewDealer_seeds_listed_nodes_witness :
  ∃ d, NewDealer (cluster [bound1] [] []) SpecEngine.BinPack = inr d
       ∧ ReleasedPodMap d = ∅
       ∧ is_Some (NodeMaps d !! "n1").
Proof.
  destruct (proj2 (NewDealer_seeds_listed_nodes (api := Mock.api)
                     (eng := SpecEngine.engine)
                     (cluster [bound1] [] []) SpecEngine.BinPack) [bound1])
    as (d & Heq & _ & Hr & _ & Hseed); [reflexivity|].
  exists d. split; [exact Heq|]. split; [exact Hr|].
  eexists. change "n1" with (v1.NodeName bound1).
  eapply Hseed; [apply list_elem_of_here|discriminate|reflexivity].
Defined.

Lemma Predicate_Handler_panics_witness :
  Predicate_Handler
    {| PredicateName := "silent"; Func := λ _ _ d, (([false], [None]), d) |}
    {| extender.Pod := pod1; extender.NodeNames := Some ["n1"] |} started
  = (None, started).
Proof.
  apply (Predicate_Handler_panics _ pod1 ["n1"] started [false] [None]).
  - reflexivity.
  - right. exists 0. split; [reflexivity|]. intros e. discriminate.
Defined.

Lemma Assume_and_Score_record_no_pod_witness :
  PodMaps (snd (Assume fifo ["n1"; "n9"] pod3 policy false started)) = PodMaps started
  ∧ PodMaps (snd (Score ["n1"; "n9"] pod3 policy false started)) = PodMaps started.
Proof.
  apply Assume_and_Score_record_no_pod. intros name Hin.
  apply elem_of_cons in Hin as [->|Hin].
  - left. eexists. reflexivity.
  - apply list_elem_of_singleton in Hin as ->. right.
    exists "node n9 not found". reflexivity.
Defined.

(** The two schedules on a request that [n1] accepts and [n9] fails. *)
Example either_order :
  Assume (λ k, reverse (seq 0 k)) ["n1"; "n9"] pod1 policy false
    (dealer (cluster [pod1] [] []))
  = (([true; false],
      [None; Some "nano gpu scheduler get node failed: node n9 not found"]),
     snd (Assume fifo ["n1"; "n9"] pod1 policy false (dealer (cluster [pod1] [] [])))).
Proof. reflexivity. Qed.

End ScriptedExtras.
